(** * check_and_download_cover: the cover-resolution pipeline

    A shallow embedding of [check_and_download_cover.py].  Python strings
    are sequences of Unicode code points; the external services (the five
    providers, the image host, the imaging library) and the file system are
    an explicit [world] and an explicit [state]; a Python exception that
    nothing catches is the [Raise] outcome of a computation. *)

From Stdlib Require Import ZArith String Ascii List Lia.
From stdpp Require Import base list gmap sets.

Local Open Scope Z_scope.

(** ** Python strings *)

(** A [str] is a sequence of code points. *)
Abbreviation str := (list N).

(** A literal of the source, written in ASCII. *)
Definition lit (s : string) : str :=
  List.map N_of_ascii (list_ascii_of_string s).

(** [if s:] on a value that is a string or [None]. *)
Definition truthy (o : option str) : bool :=
  match o with
  | Some (_ :: _) => true
  | _ => false
  end.

(** [s.split('-')[0]]: everything before the first occurrence of [c]. *)
Fixpoint split_head (c : N) (s : str) : str :=
  match s with
  | [] => []
  | x :: s' => if N.eqb x c then [] else x :: split_head c s'
  end.

Definition dash : N := 45.
Definition slash : N := 47.

(** [posixpath.join]. *)
Definition startswith_sep (b : str) : bool :=
  match b with
  | c :: _ => N.eqb c slash
  | [] => false
  end.

Definition endswith_sep (p : str) : bool :=
  match last p with
  | Some c => N.eqb c slash
  | None => false
  end.

Definition join_step (path b : str) : str :=
  if startswith_sep b then b
  else if bool_decide (path = []) || endswith_sep path then path ++ b
  else path ++ slash :: b.

Definition os_path_join (a : str) (p : list str) : str :=
  fold_left join_step p a.

(** The directories [os.makedirs(os.path.dirname(p), exist_ok=True)] leaves
    behind: every non-empty prefix of [p] that stops just before a slash. *)
Fixpoint dir_prefixes (acc p : str) : list str :=
  match p with
  | [] => []
  | c :: p' =>
      (if N.eqb c slash && negb (bool_decide (acc = [])) then [acc] else [])
        ++ dir_prefixes (acc ++ [c]) p'
  end.

(** ** Constants of the module *)

Definition DEEZER_API_URL : str := lit "https://api.deezer.com/".
Definition MUSICBRAINZ_API_URL : str := lit "https://musicbrainz.org/ws/2/".

Definition TITLE_VARIANTS : list str :=
  [lit "Deluxe"; lit "Remastered"; lit "Anniversary";
   lit "Special Edition"; lit "Expanded Edition"].

Definition ALBUM_TYPES : list str :=
  [lit "album"; lit "ep"; lit "compilation"; lit "live"].

(** ** The catalog record *)

Record album_record := {
  artist : str;
  album : str;
  year : option str;
  coverSrc : option str
}.

(** [album_data['coverSrc'] = v] *)
Definition set_coverSrc (album_data : album_record) (v : str) : album_record :=
  {| artist := artist album_data;
     album := album album_data;
     year := year album_data;
     coverSrc := Some v |}.

(** ** What the services answer *)

(** A call through [requests] raises a [RequestException] or comes back
    with a status code and a body.  The bodies are typed as the services
    document them: a 200 answer of another shape, on which the unguarded
    subscripts of the code raise a KeyError, a TypeError or an
    AttributeError, has no counterpart here, and what is proved of the
    answers is proved of the well-formed ones. *)
Inductive http (B : Type) :=
| ConnectionFailed
| Response (status_code : Z) (json : B).
Arguments ConnectionFailed {B}.
Arguments Response {B} status_code json.

(** One entry of [data['albums']['items']] of a Spotify search. *)
Record spotify_album := {
  sp_name : str;
  sp_artists : list str;
  sp_album_type : option str;
  sp_release_date : option str;
  sp_images : list str
}.

(** One entry of [data['data']] of a Deezer search. *)
Record deezer_album := {
  dz_title : str;
  dz_artist_name : str;
  dz_record_type : option str;
  dz_release_date : option str;
  dz_cover_big : str
}.

(** One entry of [data['album']['image']] of Last.fm. *)
Record lastfm_image := {
  lf_size : str;
  lf_text : str
}.

(** The result object of a Discogs search, or the exception it raised. *)
Inductive discogs_results :=
| DiscogsError
| DiscogsResults (count : Z) (releases : list (list str)).

Inductive provider := Spotify | Deezer | LastFm | Discogs | MusicBrainz.

#[global] Instance provider_eq_dec : EqDecision provider.
Proof. solve_decision. Defined.

(** The environment of a run: credentials of the process environment and
    the answer of every service to every request the program can send. *)
Record world := {
  SPOTIFY_CLIENT_ID : option str;
  SPOTIFY_CLIENT_SECRET : option str;
  DISCOGS_API_TOKEN : option str;
  LASTFM_API_KEY : option str;
  (* POST accounts.spotify.com/api/token, by the credentials "id:secret";
     the body is its "access_token" *)
  spotify_token_endpoint : str -> http (option str);
  (* GET api.spotify.com/v1/search, by bearer token and "q" *)
  spotify_search : str -> str -> http (list spotify_album);
  (* GET on the Deezer search URL *)
  deezer_search : str -> http (list deezer_album);
  (* album.getinfo, by api_key, artist and album; the body is
     data['album']['image'] when both keys are there *)
  lastfm_getinfo : option str -> str -> str -> http (option (list lastfm_image));
  (* discogs_client search, by user token, album and artist; a release is
     the list of its image uris *)
  discogs_search : option str -> str -> str -> discogs_results;
  (* GET musicbrainz.org/ws/2/release, by "query"; the body is the ids of
     data['releases'] when the key is there *)
  musicbrainz_release : str -> http (option (list str));
  (* HEAD on a Cover Art Archive URL *)
  coverart_head : str -> http unit;
  (* GET on an image URL; the body is an opaque content *)
  image_get : str -> http str;
  (* whether Image.open, resize and convert complete without raising, for
     a content and an output path; os.makedirs and img.save, which come
     after them, are then taken to go through (a failing img.save, which
     leaves the directories behind, is not modelled) *)
  imaging_completes : str -> str -> bool
}.

(** ** State and effects *)

(** What a run does to the outside. *)
Inductive event :=
| EvToken
| EvSearch (p : provider) (artist title : str)
| EvHead (url : str)
| EvDownload (url : str).

Record state := {
  fs : gset str;
  log : list event
}.

Inductive exn := RequestException | IndexError | ImagingException.

Inductive outcome (A : Type) :=
| Ok (a : A) (s : state)
| Raise (e : exn) (s : state).
Arguments Ok {A} a s.
Arguments Raise {A} e s.

Definition M (A : Type) : Type := state -> outcome A.

Definition ret {A} (a : A) : M A := fun s => Ok a s.

Definition raise {A} (e : exn) : M A := fun s => Raise e s.

Definition bind {A B} (m : M A) (k : A -> M B) : M B :=
  fun s =>
    match m s with
    | Ok a s' => k a s'
    | Raise e s' => Raise e s'
    end.

Notation "x <- m ;; k" := (bind m (fun x => k))
  (at level 100, m at next level, right associativity).

Definition emit (e : event) : M unit :=
  fun s => Ok tt {| fs := fs s; log := log s ++ [e] |}.

(** [os.path.exists] *)
Definition os_path_exists (p : str) : M bool :=
  fun s => Ok (bool_decide (p ∈ fs s)) s.

(** the file written by [img.save], with the directories made for it *)
Definition save_file (p : str) : M unit :=
  fun s => Ok tt {| fs := fs s ∪ {[p]} ∪ list_to_set (dir_prefixes [] p);
                    log := log s |}.

(** a [requests] call: an uncaught [RequestException] or the response *)
Definition requests {B} (r : http B) : M (Z * B) :=
  match r with
  | ConnectionFailed => raise RequestException
  | Response st b => ret (st, b)
  end.

(** ** The program *)

(** Function by function, as in the source.  [rate_limit] only sleeps and
    has no counterpart here; [get_spotify_artist_id], which is called
    nowhere, comes after the functions that are.  [logging] calls leave no
    trace in the state. *)

Section Program.

(** [fuzz.token_sort_ratio] of fuzzywuzzy, [slugify] of python-slugify and
    [unicodedata.normalize('NFD', _)], [unicodedata.category] are library
    functions: the program is read for any of them. *)
Variable token_sort_ratio : str -> str -> Z.
Variable slugify : str -> str.
Variable unicodedata_normalize_NFD : str -> str.
Variable unicodedata_category : N -> str.

Variable w : world.

Definition fmt_opt (o : option str) : str :=
  match o with
  | Some s => s
  | None => lit "None"
  end.

(** [f"{SPOTIFY_CLIENT_ID}:{SPOTIFY_CLIENT_SECRET}"] *)
Definition spotify_credentials : str :=
  fmt_opt (SPOTIFY_CLIENT_ID w) ++ lit ":" ++ fmt_opt (SPOTIFY_CLIENT_SECRET w).

Definition authenticate_spotify : M (option str) :=
  _ <- emit EvToken ;;
  response <- requests (spotify_token_endpoint w spotify_credentials) ;;
  if fst response =? 200 then ret (snd response) else ret None.

Definition fuzzy_match (target candidate : str) (threshold : Z) : bool :=
  threshold <=? token_sort_ratio target candidate.

Definition normalize_artist_name (artist : str) : str :=
  let normalized := unicodedata_normalize_NFD artist in
  List.filter (fun c => negb (bool_decide (unicodedata_category c = lit "Mn")))
    normalized.

(** [[album] + [f"{album} {suffix}" for suffix in TITLE_VARIANTS]] *)
Definition title_variants (album : str) : list str :=
  album :: List.map (fun suffix => album ++ lit " " ++ suffix) TITLE_VARIANTS.

(** [album_data.get('release_date', '').split('-')[0]] *)
Definition release_year_of (release_date : option str) : str :=
  split_head dash (default [] release_date).

(** The condition both [fetch_cover_spotify] and [fetch_cover_deezer] put
    on a candidate. *)
Definition candidate_matches (artist album : str) (release_year : option str)
    (artist_name album_name : str) (album_type : option str)
    (album_release_date : str) : bool :=
  fuzzy_match artist artist_name 90
  && fuzzy_match album album_name 85
  && match album_type with
     | Some t => bool_decide (t ∈ ALBUM_TYPES)
     | None => false
     end
  && match release_year with
     | None => true
     | Some y => bool_decide (album_release_date = y)
     end.

(** The loop over [data['albums']['items']]. *)
Fixpoint spotify_items (artist album : str) (release_year : option str)
    (items : list spotify_album) : M (option str) :=
  match items with
  | [] => ret None
  | album_data :: items' =>
      match sp_artists album_data with
      | [] => raise IndexError
      | artist_name :: _ =>
          if candidate_matches artist album release_year
               artist_name (sp_name album_data) (sp_album_type album_data)
               (release_year_of (sp_release_date album_data))
          then match sp_images album_data with
               | [] => raise IndexError
               | url :: _ => ret (Some url)
               end
          else spotify_items artist album release_year items'
      end
  end.

Definition spotify_q (variant artist : str) : str :=
  lit "album:" ++ variant ++ lit " artist:" ++ artist.

(** The loop over the title variants. *)
Fixpoint spotify_variants (artist album spotify_token : str)
    (release_year : option str) (variants : list str) : M (option str) :=
  match variants with
  | [] => ret None
  | variant :: variants' =>
      _ <- emit (EvSearch Spotify artist variant) ;;
      response <- requests (spotify_search w spotify_token (spotify_q variant artist)) ;;
      if fst response =? 200 then
        found <- spotify_items artist album release_year (snd response) ;;
        match found with
        | Some url => ret (Some url)
        | None => spotify_variants artist album spotify_token release_year variants'
        end
      else spotify_variants artist album spotify_token release_year variants'
  end.

Definition fetch_cover_spotify (artist album spotify_token : str)
    (release_year : option str) : M (option str) :=
  spotify_variants artist album spotify_token release_year (title_variants album).

Definition deezer_url (artist album_variant : str) : str :=
  DEEZER_API_URL ++ lit "search/album?q=artist:'" ++ artist
    ++ lit "' album:'" ++ album_variant ++ lit "'".

Fixpoint deezer_variants (artist album : str) (release_year : option str)
    (variants : list str) : M (option str) :=
  match variants with
  | [] => ret None
  | album_variant :: variants' =>
      _ <- emit (EvSearch Deezer artist album_variant) ;;
      response <- requests (deezer_search w (deezer_url artist album_variant)) ;;
      if fst response =? 200 then
        match snd response with
        | album_data :: _ =>
            if candidate_matches artist album release_year
                 (dz_artist_name album_data) (dz_title album_data)
                 (dz_record_type album_data)
                 (release_year_of (dz_release_date album_data))
            then ret (Some (dz_cover_big album_data))
            else deezer_variants artist album release_year variants'
        | [] => deezer_variants artist album release_year variants'
        end
      else deezer_variants artist album release_year variants'
  end.

Definition fetch_cover_deezer (artist album : str) (release_year : option str)
    : M (option str) :=
  deezer_variants artist album release_year (title_variants album).

(** The loop over [data['album']['image']]. *)
Fixpoint lastfm_images (images : list lastfm_image) : option str :=
  match images with
  | [] => None
  | img :: images' =>
      if bool_decide (lf_size img = lit "extralarge") then Some (lf_text img)
      else lastfm_images images'
  end.

Definition fetch_cover_lastfm (artist album : str) : M (option str) :=
  _ <- emit (EvSearch LastFm artist album) ;;
  response <- requests (lastfm_getinfo w (LASTFM_API_KEY w) artist album) ;;
  if fst response =? 200 then
    match snd response with
    | Some images => ret (lastfm_images images)
    | None => ret None
    end
  else ret None.

(** Everything raised inside the [try] is caught and logged. *)
Definition fetch_cover_discogs (artist album : str) : M (option str) :=
  _ <- emit (EvSearch Discogs artist album) ;;
  match discogs_search w (DISCOGS_API_TOKEN w) album artist with
  | DiscogsError => ret None
  | DiscogsResults count releases =>
      if 0 <? count then
        match releases with
        | (uri :: _) :: _ => ret (Some uri)
        | _ => ret None
        end
      else ret None
  end.

Definition musicbrainz_query (artist album : str) : str :=
  lit "artist:" ++ artist ++ lit " AND release:" ++ album.

Definition coverart_url (release_id : str) : str :=
  lit "https://coverartarchive.org/release/" ++ release_id ++ lit "/front-500".

Definition fetch_cover_musicbrainz (artist album : str) : M (option str) :=
  _ <- emit (EvSearch MusicBrainz artist album) ;;
  response <- requests (musicbrainz_release w (musicbrainz_query artist album)) ;;
  if fst response =? 200 then
    match snd response with
    | Some (release_id :: _) =>
        let cover_url := coverart_url release_id in
        _ <- emit (EvHead cover_url) ;;
        head_response <- requests (coverart_head w cover_url) ;;
        if fst head_response =? 404 then ret None else ret (Some cover_url)
    | _ => ret None
    end
  else ret None.

(** Only a [RequestException] is caught; what the imaging steps
    ([Image.open], [resize], [convert]) raise leaves the function, and it
    does so before [os.makedirs] has made a directory. *)
Definition download_and_resize_image (url output_path : str) : M bool :=
  _ <- emit (EvDownload url) ;;
  match image_get w url with
  | ConnectionFailed => ret false
  | Response status_code content =>
      if status_code =? 200 then
        if imaging_completes w content output_path then
          _ <- save_file output_path ;;
          ret true
        else raise ImagingException
      else ret false
  end.

Definition output_path_of (genre artist album : str) : str :=
  let slugified_filename := slugify (artist ++ lit "_" ++ album) ++ lit ".jpg" in
  os_path_join (lit "bandcover") [genre; slugified_filename].

Definition default_cover : str := lit "/default-cover.jpg".

(** The fallback over the five sources, lines 376 to 413 of [process_json]:
    the cover URL, and the record with the placeholder when MusicBrainz,
    asked last, has nothing either. *)
Definition provider_chain (spotify_token : option str) (artist album : str)
    (release_year : option str) (album_data : album_record)
    : M (option str * album_record) :=
  (* Spotify *)
  cover_url <- (if truthy spotify_token
                then fetch_cover_spotify artist album (default [] spotify_token)
                       release_year
                else ret None) ;;
  (* Deezer *)
  cover_url <- (if negb (truthy cover_url)
                then fetch_cover_deezer artist album release_year
                else ret cover_url) ;;
  (* Last.fm *)
  cover_url <- (if negb (truthy cover_url)
                then fetch_cover_lastfm artist album
                else ret cover_url) ;;
  (* Discogs *)
  cover_url <- (if negb (truthy cover_url)
                then fetch_cover_discogs artist album
                else ret cover_url) ;;
  (* MusicBrainz / Cover Art Archive *)
  if negb (truthy cover_url) then
    cover_url <- fetch_cover_musicbrainz artist album ;;
    if truthy cover_url then ret (cover_url, album_data)
    else ret (cover_url, set_coverSrc album_data default_cover)
  else ret (cover_url, album_data).

(** The body of the loop of [process_json]. *)
Definition process_record (spotify_token : option str) (genre : str)
    (album_data : album_record) : M album_record :=
  let artist := artist album_data in
  let album := album album_data in
  let release_year := year album_data in
  let cover_src := coverSrc album_data in
  let album_data :=
    if truthy cover_src then album_data else set_coverSrc album_data [] in
  let output_path := output_path_of genre artist album in
  skip <- (if truthy cover_src then os_path_exists (default [] cover_src)
           else ret false) ;;
  if (skip : bool) then ret album_data else
  cached <- os_path_exists output_path ;;
  if (cached : bool) then ret (set_coverSrc album_data (slash :: output_path)) else
  r <- provider_chain spotify_token artist album release_year album_data ;;
  let cover_url := fst r in
  let album_data := snd r in
  if truthy cover_url then
    ok <- download_and_resize_image (default [] cover_url) output_path ;;
    if (ok : bool) then ret (set_coverSrc album_data (slash :: output_path))
    else ret album_data
  else ret album_data.

(** [for album_data in data] *)
Fixpoint process_records (spotify_token : option str) (genre : str)
    (data : list album_record) : M (list album_record) :=
  match data with
  | [] => ret []
  | album_data :: data' =>
      album_data' <- process_record spotify_token genre album_data ;;
      data'' <- process_records spotify_token genre data' ;;
      ret (album_data' :: data'')
  end.

(** [process_json], from the loaded catalog to the one written back;
    [genre] is the name of the catalog file without its extension. *)
Definition process_json (genre : str) (data : list album_record)
    : M (list album_record) :=
  spotify_token <- authenticate_spotify ;;
  process_records spotify_token genre data.

(** ** The design the specification describes, for comparison *)

Definition priority : list provider :=
  [Spotify; Deezer; LastFm; Discogs; MusicBrainz].

(** One provider behind the interface [query(artist, album, year)];
    Spotify is there when the token exchange gave a token. *)
Definition query_provider (spotify_token : option str) (artist album : str)
    (release_year : option str) (p : provider) : M (option str) :=
  match p with
  | Spotify =>
      if truthy spotify_token
      then fetch_cover_spotify artist album (default [] spotify_token) release_year
      else ret None
  | Deezer => fetch_cover_deezer artist album release_year
  | LastFm => fetch_cover_lastfm artist album
  | Discogs => fetch_cover_discogs artist album
  | MusicBrainz => fetch_cover_musicbrainz artist album
  end.

(** "tried in sequence until one yields a match": a provider that finds
    nothing is passed over, the first that finds ends the search. *)
Fixpoint resolve_cover (query : provider -> M (option str))
    (providers : list provider) : M (option str) :=
  match providers with
  | [] => ret None
  | p :: providers' =>
      r <- query p ;;
      if truthy r then ret r else resolve_cover query providers'
  end.

(** A candidate as the verifier of the specification sees it. *)
Record CoverCandidate := {
  imageUrl : option str;
  sourceArtist : str;
  sourceAlbum : str;
  albumType : option str;
  releaseDate : option str
}.

Definition candidate_of_spotify (a : spotify_album) : option CoverCandidate :=
  match sp_artists a with
  | [] => None
  | artist_name :: _ =>
      Some {| imageUrl := head (sp_images a);
              sourceArtist := artist_name;
              sourceAlbum := sp_name a;
              albumType := sp_album_type a;
              releaseDate := sp_release_date a |}
  end.

Definition candidate_of_deezer (a : deezer_album) : CoverCandidate :=
  {| imageUrl := Some (dz_cover_big a);
     sourceArtist := dz_artist_name a;
     sourceAlbum := dz_title a;
     albumType := dz_record_type a;
     releaseDate := dz_release_date a |}.

(** The verification the code applies, on a candidate. *)
Definition verify (artist album : str) (release_year : option str)
    (c : CoverCandidate) : bool :=
  candidate_matches artist album release_year
    (sourceArtist c) (sourceAlbum c) (albumType c)
    (release_year_of (releaseDate c)).

(** The verification as the specification words it: the two artist names
    are stripped of their diacritics before they are compared. *)
Definition verify_normalized (artist album : str) (release_year : option str)
    (c : CoverCandidate) : bool :=
  candidate_matches (normalize_artist_name artist) album release_year
    (normalize_artist_name (sourceArtist c)) (sourceAlbum c) (albumType c)
    (release_year_of (releaseDate c)).

(** The candidates Spotify and Deezer put before the verifier when asked
    for a title: those of a 200 answer to the search (Deezer: the first). *)
Definition offered_at (p : provider) (spotify_token : option str)
    (artist title : str) (c : CoverCandidate) : Prop :=
  match p with
  | Spotify =>
      exists token items a,
        spotify_token = Some token /\
        spotify_search w token (spotify_q title artist) = Response 200 items /\
        a ∈ items /\ candidate_of_spotify a = Some c
  | Deezer =>
      exists a items,
        deezer_search w (deezer_url artist title) = Response 200 (a :: items) /\
        c = candidate_of_deezer a
  | _ => False
  end.

(** ... and over all the title variants of an album. *)
Definition offered (p : provider) (spotify_token : option str)
    (artist album : str) (c : CoverCandidate) : Prop :=
  exists variant, variant ∈ title_variants album /\
    offered_at p spotify_token artist variant c.

End Program.

(** ** Sample library functions and worlds, to run the program on *)

(** A scorer in the place of [fuzz.token_sort_ratio]: 100 for equal
    strings, 0 otherwise. *)
Definition sample_ratio (a b : str) : Z :=
  if bool_decide (a = b) then 100 else 0.

(** In the place of [slugify]: ASCII letters in lower case, digits kept,
    anything else a hyphen. *)
Definition sample_slugify (s : str) : str :=
  List.map (fun c : N =>
    if (65 <=? c)%N && (c <=? 90)%N then (c + 32)%N
    else if ((97 <=? c)%N && (c <=? 122)%N) || ((48 <=? c)%N && (c <=? 57)%N)
    then c else 45%N) s.

(** In the place of [unicodedata]: the decomposition of the few accented
    Latin letters used below, and the category of the combining marks
    U+0300 to U+036F. *)
Definition sample_NFD (s : str) : str :=
  flat_map (fun c : N =>
    if (c =? 233)%N then [101; 769]      (* e with acute *)
    else if (c =? 246)%N then [111; 776] (* o with diaeresis *)
    else [c])%N s.

Definition sample_category (c : N) : str :=
  if (768 <=? c)%N && (c <=? 879)%N then lit "Mn" else lit "Ll".

(** A world where nothing is configured and nobody knows the album: the
    token request is refused, every search comes back empty. *)
Definition silent_world : world :=
  {| SPOTIFY_CLIENT_ID := None;
     SPOTIFY_CLIENT_SECRET := None;
     DISCOGS_API_TOKEN := None;
     LASTFM_API_KEY := None;
     spotify_token_endpoint := fun _ => Response 400 None;
     spotify_search := fun _ _ => Response 401 [];
     deezer_search := fun _ => Response 200 [];
     lastfm_getinfo := fun _ _ _ => Response 403 None;
     discogs_search := fun _ _ _ => DiscogsError;
     musicbrainz_release := fun _ => Response 200 (Some []);
     coverart_head := fun _ => Response 404 tt;
     image_get := fun _ => Response 404 [];
     imaging_completes := fun _ _ => false |}.

Definition wall_cover_url : str := lit "https://img.example/the-wall.jpg".

(** Last.fm alone knows the album; the image downloads and converts. *)
Definition lastfm_world : world :=
  {| SPOTIFY_CLIENT_ID := None;
     SPOTIFY_CLIENT_SECRET := None;
     DISCOGS_API_TOKEN := None;
     LASTFM_API_KEY := Some (lit "key");
     spotify_token_endpoint := fun _ => Response 400 None;
     spotify_search := fun _ _ => Response 401 [];
     deezer_search := fun _ => Response 200 [];
     lastfm_getinfo := fun _ _ _ =>
       Response 200
         (Some [ {| lf_size := lit "small";
                    lf_text := lit "https://img.example/34s.jpg" |};
                 {| lf_size := lit "extralarge"; lf_text := wall_cover_url |} ]);
     discogs_search := fun _ _ _ => DiscogsError;
     musicbrainz_release := fun _ => Response 200 (Some []);
     coverart_head := fun _ => Response 404 tt;
     image_get := fun _ => Response 200 (lit "JFIF");
     imaging_completes := fun _ _ => true |}.

(** The same, but what the image host sends is no image: [Image.open]
    raises. *)
Definition broken_image_world : world :=
  {| SPOTIFY_CLIENT_ID := None;
     SPOTIFY_CLIENT_SECRET := None;
     DISCOGS_API_TOKEN := None;
     LASTFM_API_KEY := Some (lit "key");
     spotify_token_endpoint := fun _ => Response 400 None;
     spotify_search := fun _ _ => Response 401 [];
     deezer_search := fun _ => Response 200 [];
     lastfm_getinfo := lastfm_getinfo lastfm_world;
     discogs_search := fun _ _ _ => DiscogsError;
     musicbrainz_release := fun _ => Response 200 (Some []);
     coverart_head := fun _ => Response 404 tt;
     image_get := fun _ => Response 200 (lit "<html>");
     imaging_completes := fun _ _ => false |}.

Definition the_wall_on_spotify : spotify_album :=
  {| sp_name := lit "The Wall";
     sp_artists := [lit "Pink Floyd"];
     sp_album_type := Some (lit "album");
     sp_release_date := Some (lit "1979-11-30");
     sp_images := [wall_cover_url] |}.

(** Credentials are set and Spotify knows the album under its title. *)
Definition spotify_world : world :=
  {| SPOTIFY_CLIENT_ID := Some (lit "id");
     SPOTIFY_CLIENT_SECRET := Some (lit "secret");
     DISCOGS_API_TOKEN := None;
     LASTFM_API_KEY := None;
     spotify_token_endpoint := fun credentials =>
       if bool_decide (credentials = lit "id:secret")
       then Response 200 (Some (lit "token")) else Response 400 None;
     spotify_search := fun _ q =>
       if bool_decide (q = lit "album:The Wall artist:Pink Floyd")
       then Response 200 [the_wall_on_spotify] else Response 200 [];
     deezer_search := fun _ => Response 200 [];
     lastfm_getinfo := fun _ _ _ => Response 403 None;
     discogs_search := fun _ _ _ => DiscogsError;
     musicbrainz_release := fun _ => Response 200 (Some []);
     coverart_head := fun _ => Response 404 tt;
     image_get := fun _ => Response 200 (lit "JFIF");
     imaging_completes := fun _ _ => true |}.

Definition homogenic_on_deezer : deezer_album :=
  {| dz_title := lit "Homogenic";
     dz_artist_name := lit "Bjork";
     dz_record_type := Some (lit "album");
     dz_release_date := None;
     dz_cover_big := lit "https://img.example/homogenic.jpg" |}.

(** Deezer lists the artist without the diaeresis. *)
Definition bjork_world : world :=
  {| SPOTIFY_CLIENT_ID := None;
     SPOTIFY_CLIENT_SECRET := None;
     DISCOGS_API_TOKEN := None;
     LASTFM_API_KEY := None;
     spotify_token_endpoint := fun _ => Response 400 None;
     spotify_search := fun _ _ => Response 401 [];
     deezer_search := fun _ => Response 200 [homogenic_on_deezer];
     lastfm_getinfo := fun _ _ _ => Response 403 None;
     discogs_search := fun _ _ _ => DiscogsError;
     musicbrainz_release := fun _ => Response 200 (Some []);
     coverart_head := fun _ => Response 404 tt;
     image_get := fun _ => Response 404 [];
     imaging_completes := fun _ _ => false |}.

(** Deezer cannot be reached: [requests.get] raises. *)
Definition deezer_down_world : world :=
  {| SPOTIFY_CLIENT_ID := None;
     SPOTIFY_CLIENT_SECRET := None;
     DISCOGS_API_TOKEN := None;
     LASTFM_API_KEY := Some (lit "key");
     spotify_token_endpoint := fun _ => Response 400 None;
     spotify_search := fun _ _ => Response 401 [];
     deezer_search := fun _ => ConnectionFailed;
     lastfm_getinfo := lastfm_getinfo lastfm_world;
     discogs_search := fun _ _ _ => DiscogsError;
     musicbrainz_release := fun _ => Response 200 (Some []);
     coverart_head := fun _ => Response 404 tt;
     image_get := fun _ => Response 200 (lit "JFIF");
     imaging_completes := fun _ _ => true |}.

Definition pink_floyd : album_record :=
  {| artist := lit "Pink Floyd"; album := lit "The Wall";
     year := Some (lit "1979"); coverSrc := None |}.

Definition animals : album_record :=
  {| artist := lit "Pink Floyd"; album := lit "Animals";
     year := Some (lit "1977"); coverSrc := None |}.

(** "Björk", with U+00F6 *)
Definition bjork : str := lit "Bj" ++ [246%N] ++ lit "rk".

Definition homogenic : album_record :=
  {| artist := bjork; album := lit "Homogenic"; year := None; coverSrc := None |}.

Definition empty_disk : state := {| fs := ∅; log := [] |}.

Definition wall_path : str := lit "bandcover/rock/pink-floyd-the-wall.jpg".

(** a disk that holds the cover of the first record already *)
Definition disk_with_wall : state := {| fs := {[ wall_path ]}; log := [] |}.

(** the six searches of Spotify or Deezer for an album *)
Definition six_titles (p : provider) (a al : str) : list event :=
  List.map (EvSearch p a) (title_variants al).

(** ** Outcomes, logs *)

Definition state_of {A} (o : outcome A) : state :=
  match o with
  | Ok _ s => s
  | Raise _ s => s
  end.

Definition map_outcome {A B} (f : A -> B) (o : outcome A) : outcome B :=
  match o with
  | Ok a s => Ok (f a) s
  | Raise e s => Raise e s
  end.

(** the state after some more events *)
Definition add_log (s : state) (evs : list event) : state :=
  {| fs := fs s; log := log s ++ evs |}.

(** the provider a request goes to *)
Definition event_provider (e : event) : option provider :=
  match e with
  | EvSearch p _ _ => Some p
  | EvHead _ => Some MusicBrainz
  | EvToken => None
  | EvDownload _ => None
  end.

(** a cover URL when there is one, [None] otherwise *)
Definition found (r : option str) : option str :=
  if truthy r then r else None.

(** the state after a download that went through *)
Definition saved (s : state) (url output_path : str) : state :=
  {| fs := fs s ∪ {[output_path]} ∪ list_to_set (dir_prefixes [] output_path);
     log := log s ++ [EvDownload url] |}.

(** [cover_src and os.path.exists(cover_src)] *)
Definition valid_cover (disk : gset str) (r : album_record) : bool :=
  truthy (coverSrc r) && bool_decide (default [] (coverSrc r) ∈ disk).

(** the record as the loop works on it after lines 362 to 364 *)
Definition with_coverSrc_field (r : album_record) : album_record :=
  if truthy (coverSrc r) then r else set_coverSrc r [].

(** the titles a provider searches for, in the order it does *)
Definition titles_tried (p : provider) (album : str) : list str :=
  match p with
  | Spotify | Deezer =>
      album :: List.map (fun suffix => album ++ lit " " ++ suffix) TITLE_VARIANTS
  | _ => [album]
  end.

Definition is_search (e : event) : bool :=
  match e with
  | EvSearch _ _ _ => true
  | _ => false
  end.

Section Settled.

Variable slugify : str -> str.
Variable disk : gset str.
Variable genre : str.

(** [os.path.exists(output_path)] *)
Definition cached (r : album_record) : bool :=
  bool_decide (output_path_of slugify genre (artist r) (album r) ∈ disk).

(** a record the loop passes over without a lookup *)
Definition settled (r : album_record) : bool :=
  valid_cover disk r || cached r.

(** what the loop leaves of such a record *)
Definition settle (r : album_record) : album_record :=
  if valid_cover disk r then r
  else set_coverSrc r (slash :: output_path_of slugify genre (artist r) (album r)).

End Settled.

Section Verification.

Variable token_sort_ratio : str -> str -> Z.

(** The four checks of the match verification, spelled out. *)
Definition passes_verification (artist album : str) (release_year : option str)
    (c : CoverCandidate) : Prop :=
  90 <= token_sort_ratio artist (sourceArtist c) /\
  85 <= token_sort_ratio album (sourceAlbum c) /\
  (exists t, albumType c = Some t /\ t ∈ ALBUM_TYPES) /\
  (forall y, release_year = Some y -> release_year_of (releaseDate c) = y).

Variable w : world.

(** What a run of one of the two loops over the title variants tells:
    [n] titles were searched, in order; none before the last gave a
    verified candidate; a URL is that of a verified candidate offered for
    the last title searched, and without a URL all titles were searched and
    none gave one. *)
Definition searched_until_hit (p : provider) (tok : option str) (a al : str)
    (y : option str) (vs : list str) (r : option str) (n : nat) : Prop :=
  (forall i v c, (i < match r with Some _ => pred n | None => n end)%nat ->
     vs !! i = Some v -> offered_at w p tok a v c ->
     verify token_sort_ratio a al y c = false) /\
  match r with
  | None => n = length vs
  | Some url =>
      exists variant c,
        vs !! pred n = Some variant /\ (0 < n)%nat /\
        offered_at w p tok a variant c /\
        verify token_sort_ratio a al y c = true /\ imageUrl c = Some url
  end.

End Verification.

(** what a run shows from outside: its result or the exception that ended
    it, and the requests it sent *)
Definition observed {A} (o : outcome A) : (A + exn) * list event :=
  match o with
  | Ok a s => (inl a, log s)
  | Raise e s => (inr e, log s)
  end.

(** ** Four sentences of the specification, as they are worded *)

Section AsWorded.

Variable token_sort_ratio : str -> str -> Z.
Variable slugify : str -> str.
Variable w : world.

(** "every provider's Found result is gated by MatchVerifier" *)
Definition every_found_is_verified (tok : option str) (r : album_record)
    (s : state) : Prop :=
  forall url r' s',
    provider_chain token_sort_ratio w tok (artist r) (album r) (year r) r s
      = Ok (url, r') s' ->
    truthy url = true ->
    exists p c,
      offered w p tok (artist r) (album r) c /\
      passes_verification token_sort_ratio (artist r) (album r) (year r) c /\
      imageUrl c = url.

(** "each provider attempts the base album title, then title concatenated
    with each of a fixed set of suffixes": one that finds nothing has
    searched for all six *)
Definition every_provider_tries_variants (tok : option str) (a al : str)
    (y : option str) (p : provider) (s : state) : Prop :=
  forall s',
    query_provider token_sort_ratio w tok a al y p s = Ok None s' ->
    exists heads,
      s' = add_log s (List.map (EvSearch p a) (title_variants al)
                        ++ List.map EvHead heads).

(** "running the pipeline twice produces no additional network calls and
    an unchanged coverSrc for every record", not even counting the token
    request as a call *)
Definition second_run_is_idle (genre : str) (data : list album_record)
    (s : state) : Prop :=
  forall data1 s1,
    process_json token_sort_ratio slugify w genre data s = Ok data1 s1 ->
    exists s2,
      process_json token_sort_ratio slugify w genre data1 s1 = Ok data1 s2 /\
      Forall (fun e => is_search e = false) (drop (length (log s1)) (log s2)).

(** "absence of a credential disables that provider (chain skips it)" *)
Definition absent_credential_skips (tok : option str) (r : album_record)
    (s : state) : Prop :=
  forall e,
    e ∈ log (state_of (provider_chain token_sort_ratio w tok
                         (artist r) (album r) (year r) r s)) ->
    e ∉ log s ->
    (SPOTIFY_CLIENT_ID w = None -> event_provider e <> Some Spotify) /\
    (LASTFM_API_KEY w = None -> event_provider e <> Some LastFm) /\
    (DISCOGS_API_TOKEN w = None -> event_provider e <> Some Discogs).

End AsWorded.

(** ** The chain, provider by provider *)

(** The providers [ps], asked one after the other from the state [s], all
    came back with nothing and left the state [s0]. *)
Fixpoint handed_over (query : provider -> M (option str))
    (ps : list provider) (s s0 : state) : Prop :=
  match ps with
  | [] => s0 = s
  | p :: ps' =>
      exists r s1,
        query p s = Ok r s1 /\ truthy r = false /\ handed_over query ps' s1 s0
  end.

(** The chain as the specification words it, "a NotFound or TransientError
    from a provider moves the chain to the next provider, and the first
    Found result short-circuits all remaining providers": a provider whose
    request raises is passed over like one that finds nothing. *)
Fixpoint resolve_skipping (query : provider -> M (option str))
    (providers : list provider) : M (option str) :=
  match providers with
  | [] => ret None
  | p :: providers' =>
      fun s =>
        match query p s with
        | Ok r s1 =>
            if truthy r then Ok r s1
            else resolve_skipping query providers' s1
        | Raise _ s1 => resolve_skipping query providers' s1
        end
  end.

Section ChainAsWorded.

Variable token_sort_ratio : str -> str -> Z.
Variable slugify : str -> str.
Variable w : world.

(** C4 as it is worded: the chain of the program is that chain *)
Definition failed_provider_is_skipped (tok : option str) (r : album_record)
    (s : state) : Prop :=
  map_outcome (fun x => found (fst x))
    (provider_chain token_sort_ratio w tok (artist r) (album r) (year r) r s)
  = resolve_skipping
      (query_provider token_sort_ratio w tok (artist r) (album r) (year r))
      priority s.

(** C6 as it is worded, "every provider fails to produce a verified match
    (total exhaustion)": no provider offers a candidate that passes the
    verification, and the record is given the placeholder *)
Definition exhaustion_gives_placeholder (tok : option str) (genre : str)
    (r : album_record) (s : state) : Prop :=
  valid_cover (fs s) r = false ->
  cached slugify (fs s) genre r = false ->
  (forall p c,
     offered w p tok (artist r) (album r) c ->
     verify token_sort_ratio (artist r) (album r) (year r) c = false) ->
  exists r' s',
    process_record token_sort_ratio slugify w tok genre r s = Ok r' s' /\
    coverSrc r' = Some default_cover.

End ChainAsWorded.

(** ** More of the program, and more of what runs show *)

Section ArtistSearch.

(** GET api.spotify.com/v1/search with type "artist" and limit 1, by
    bearer token and "q"; the body is the ids of
    [data['artists']['items']], for an answer that has them (on a 200
    answer without these keys the subscripts of the code raise a KeyError,
    which is outside this model). *)
Variable spotify_artist_search : str -> str -> http (list str).

(** [get_spotify_artist_id]; its request is logged as a Spotify search
    for the artist, with no title. *)
Definition get_spotify_artist_id (artist spotify_token : str) : M (option str) :=
  _ <- emit (EvSearch Spotify artist []) ;;
  response <- requests (spotify_artist_search spotify_token
                          (lit "artist:" ++ artist)) ;;
  if fst response =? 200 then
    match snd response with
    | artist_id :: _ => ret (Some artist_id)
    | [] => ret None
    end
  else ret None.

End ArtistSearch.

(** the outcome with a given result after some more requests *)
Definition outcome_at {A} (res : A + exn) (evs : list event) (s : state)
    : outcome A :=
  match res with
  | inl a => Ok a (add_log s evs)
  | inr e => Raise e (add_log s evs)
  end.

(** a request to one of the five providers *)
Definition is_provider_event (e : event) : Prop :=
  match event_provider e with
  | Some _ => True
  | None => False
  end.

Definition is_download (e : event) : bool :=
  match e with
  | EvDownload _ => true
  | _ => false
  end.

(** the requests of the loop over the records: searches, probes, and
    downloads of a URL that is not empty *)
Definition is_record_event (e : event) : Prop :=
  match e with
  | EvToken => False
  | EvDownload url => url <> []
  | _ => True
  end.

(** what of a search answer [fetch_cover_deezer] looks at: the status and
    the first entry *)
Definition head_of_answer {B} (r : http (list B)) : http (option B) :=
  match r with
  | ConnectionFailed => ConnectionFailed
  | Response st items => Response st (head items)
  end.

(** [x] has the category of the combining marks *)
Definition is_Mn (unicodedata_category : N -> str) (c : N) : Prop :=
  unicodedata_category c = lit "Mn".

(** the paths a run may create for a catalog: the output files of its
    records and the directories above them *)
Definition output_files (slugify : str -> str) (genre : str)
    (data : list album_record) : gset str :=
  list_to_set
    (flat_map (fun r =>
       output_path_of slugify genre (artist r) (album r)
         :: dir_prefixes [] (output_path_of slugify genre (artist r) (album r)))
       data).

(** a Spotify entry the loop of [fetch_cover_spotify] goes past: it names
    an artist and is turned down *)
Definition passed_over (token_sort_ratio : str -> str -> Z)
    (artist album : str) (release_year : option str) (a : spotify_album) : Prop :=
  exists artist_name names,
    sp_artists a = artist_name :: names /\
    candidate_matches token_sort_ratio artist album release_year
      artist_name (sp_name a) (sp_album_type a)
      (release_year_of (sp_release_date a)) = false.

(** ... and one it stops at: it names an artist and matches *)
Definition taken (token_sort_ratio : str -> str -> Z)
    (artist album : str) (release_year : option str) (a : spotify_album) : Prop :=
  exists artist_name names,
    sp_artists a = artist_name :: names /\
    candidate_matches token_sort_ratio artist album release_year
      artist_name (sp_name a) (sp_album_type a)
      (release_year_of (sp_release_date a)) = true.

(** a computation that only asks providers: what it returns and what it
    asks depend neither on the disk nor on what was sent before, and the
    disk is left alone *)
Definition only_asks {A} (m : M A) : Prop :=
  exists res evs,
    Forall is_provider_event evs /\ forall s, m s = outcome_at res evs s.

(** the exceptions a computation can end in are among [P] *)
Definition may_raise {A} (P : exn -> Prop) (m : M A) : Prop :=
  forall s e s', m s = Raise e s' -> P e.

(** *** The genre of a catalog file *)

Definition dot : N := 46.

(** [posixpath.basename]: what follows the last slash *)
Definition basename (p : str) : str := rev (split_head slash (rev p)).

(** what follows the first [c] of [s], when there is one *)
Fixpoint after_first (c : N) (s : str) : option str :=
  match s with
  | [] => None
  | x :: s' => if N.eqb x c then Some s' else after_first c s'
  end.

(** [posixpath.splitext(p)[0]]: [p] without the last dot of its file name
    and what follows it, unless nothing but dots comes before that dot in
    the file name *)
Definition splitext_root (p : str) : str :=
  match after_first dot (rev (basename p)) with
  | Some stem_rev =>
      if forallb (N.eqb dot) stem_rev then p
      else take (length p - length (basename p))%nat p ++ rev stem_rev
  | None => p
  end.

(** lines 350 and 351 of [process_json] *)
Definition genre_of (file_path : str) : str :=
  let json_filename := basename file_path in
  splitext_root json_filename.

(** *** More sample worlds *)

(** Nothing can be reached, not even the token endpoint. *)
Definition offline_world : world :=
  {| SPOTIFY_CLIENT_ID := Some (lit "id");
     SPOTIFY_CLIENT_SECRET := Some (lit "secret");
     DISCOGS_API_TOKEN := None;
     LASTFM_API_KEY := None;
     spotify_token_endpoint := fun _ => ConnectionFailed;
     spotify_search := fun _ _ => ConnectionFailed;
     deezer_search := fun _ => ConnectionFailed;
     lastfm_getinfo := fun _ _ _ => ConnectionFailed;
     discogs_search := fun _ _ _ => DiscogsError;
     musicbrainz_release := fun _ => ConnectionFailed;
     coverart_head := fun _ => ConnectionFailed;
     image_get := fun _ => ConnectionFailed;
     imaging_completes := fun _ _ => false |}.

(** An entry of a Spotify answer that names no artist. *)
Definition nameless_on_spotify : spotify_album :=
  {| sp_name := lit "The Wall";
     sp_artists := [];
     sp_album_type := Some (lit "album");
     sp_release_date := Some (lit "1979-11-30");
     sp_images := [wall_cover_url] |}.

Definition animals_on_spotify : spotify_album :=
  {| sp_name := lit "Animals";
     sp_artists := [lit "Pink Floyd"];
     sp_album_type := Some (lit "album");
     sp_release_date := Some (lit "1977-01-21");
     sp_images := [] |}.

(** Spotify answers with such an entry, after one of another album. *)
Definition nameless_world : world :=
  {| SPOTIFY_CLIENT_ID := Some (lit "id");
     SPOTIFY_CLIENT_SECRET := Some (lit "secret");
     DISCOGS_API_TOKEN := None;
     LASTFM_API_KEY := None;
     spotify_token_endpoint := fun _ => Response 200 (Some (lit "token"));
     spotify_search := fun _ _ =>
       Response 200 [animals_on_spotify; nameless_on_spotify];
     deezer_search := fun _ => Response 200 [];
     lastfm_getinfo := fun _ _ _ => Response 403 None;
     discogs_search := fun _ _ _ => DiscogsError;
     musicbrainz_release := fun _ => Response 200 (Some []);
     coverart_head := fun _ => Response 404 tt;
     image_get := fun _ => Response 404 [];
     imaging_completes := fun _ _ => false |}.

(** Deezer lists the album twice: first under "Bjork", then under the
    name as it is asked for. *)
Definition bjork_twice_world : world :=
  {| SPOTIFY_CLIENT_ID := None;
     SPOTIFY_CLIENT_SECRET := None;
     DISCOGS_API_TOKEN := None;
     LASTFM_API_KEY := None;
     spotify_token_endpoint := fun _ => Response 400 None;
     spotify_search := fun _ _ => Response 401 [];
     deezer_search := fun _ =>
       Response 200
         [ homogenic_on_deezer;
           {| dz_title := lit "Homogenic";
              dz_artist_name := bjork;
              dz_record_type := Some (lit "album");
              dz_release_date := None;
              dz_cover_big := lit "https://img.example/homogenic-2.jpg" |} ];
     lastfm_getinfo := fun _ _ _ => Response 403 None;
     discogs_search := fun _ _ _ => DiscogsError;
     musicbrainz_release := fun _ => Response 200 (Some []);
     coverart_head := fun _ => Response 404 tt;
     image_get := fun _ => Response 404 [];
     imaging_completes := fun _ _ => false |}.

(** MusicBrainz knows a release; the Cover Art Archive answers the probe
    with a server error, and the image host refuses the download. *)
Definition coverart_error_world : world :=
  {| SPOTIFY_CLIENT_ID := None;
     SPOTIFY_CLIENT_SECRET := None;
     DISCOGS_API_TOKEN := None;
     LASTFM_API_KEY := None;
     spotify_token_endpoint := fun _ => Response 400 None;
     spotify_search := fun _ _ => Response 401 [];
     deezer_search := fun _ => Response 200 [];
     lastfm_getinfo := fun _ _ _ => Response 403 None;
     discogs_search := fun _ _ _ => DiscogsResults 0 [];
     musicbrainz_release := fun _ => Response 200 (Some [lit "b84ee12a"]);
     coverart_head := fun _ => Response 500 tt;
     image_get := fun _ => Response 500 [];
     imaging_completes := fun _ _ => false |}.

(** two Last.fm images of the size asked for *)
Definition two_extralarge : list lastfm_image :=
  [ {| lf_size := lit "small"; lf_text := lit "https://img.example/34s.jpg" |};
    {| lf_size := lit "extralarge"; lf_text := wall_cover_url |};
    {| lf_size := lit "extralarge"; lf_text := lit "https://img.example/other.jpg" |} ].

Ltac step :=
  match goal with
  | |- context [match ?m ?s with Ok _ _ => _ | Raise _ _ => _ end] =>
      destruct (m s) eqn:?
  | H : context [match ?m ?s with Ok _ _ => _ | Raise _ _ => _ end] |- _ =>
      destruct (m s) eqn:?
  end.

(** ** Facts *)

Lemma add_log_nil s : add_log s [] = s.
Proof. destruct s; unfold add_log; simpl. by rewrite app_nil_r. Qed.

Lemma add_log_app s l1 l2 : add_log (add_log s l1) l2 = add_log s (l1 ++ l2).
Proof. unfold add_log; simpl. by rewrite app_assoc. Qed.

Lemma emit_eq e s : emit e s = Ok tt (add_log s [e]).
Proof. reflexivity. Qed.

Section Facts.

Variable token_sort_ratio : str -> str -> Z.
Variable slugify : str -> str.
Variable unicodedata_normalize_NFD : str -> str.
Variable unicodedata_category : N -> str.
Variable w : world.

Local Abbreviation normalize_artist_name :=
  (normalize_artist_name unicodedata_normalize_NFD unicodedata_category).
Local Abbreviation verify_normalized :=
  (verify_normalized token_sort_ratio unicodedata_normalize_NFD
     unicodedata_category).
Local Abbreviation searched_until_hit :=
  (searched_until_hit token_sort_ratio w).
Local Abbreviation fetch_cover_spotify := (fetch_cover_spotify token_sort_ratio w).
Local Abbreviation fetch_cover_deezer := (fetch_cover_deezer token_sort_ratio w).
Local Abbreviation fetch_cover_lastfm := (fetch_cover_lastfm w).
Local Abbreviation fetch_cover_discogs := (fetch_cover_discogs w).
Local Abbreviation fetch_cover_musicbrainz := (fetch_cover_musicbrainz w).
Local Abbreviation provider_chain := (provider_chain token_sort_ratio w).
Local Abbreviation query_provider := (query_provider token_sort_ratio w).
Local Abbreviation process_record := (process_record token_sort_ratio slugify w).
Local Abbreviation process_records := (process_records token_sort_ratio slugify w).
Local Abbreviation process_json := (process_json token_sort_ratio slugify w).

Lemma chain_refines tok a al y rec s :
  map_outcome (fun r => found (fst r)) (provider_chain tok a al y rec s)
  = resolve_cover (query_provider tok a al y) priority s.
Proof.
  unfold provider_chain, priority, resolve_cover, query_provider, bind, found, ret.
  repeat first
    [ progress simpl
    | match goal with H : truthy _ = _ |- _ => rewrite H end
    | match goal with |- context [truthy ?a] => destruct (truthy a) eqn:? end
    | step ];
  done.
Qed.


(** *** What a provider leaves in the log, and what a hit tells *)

Lemma spotify_items_inv a al y items s r s' :
  spotify_items token_sort_ratio a al y items s = Ok r s' ->
  s' = s /\
  match r with
  | Some url =>
      exists item c, item ∈ items /\ candidate_of_spotify item = Some c /\
        verify token_sort_ratio a al y c = true /\ imageUrl c = Some url
  | None =>
      forall item c, item ∈ items -> candidate_of_spotify item = Some c ->
        verify token_sort_ratio a al y c = false
  end.
Proof.
  induction items as [|item items IH]; simpl.
  - intros [= <- <-]. split; [done|]. intros item c Hin. by apply elem_of_nil in Hin.
  - unfold verify, candidate_of_spotify in *.
    destruct (sp_artists item) as [|artist_name names] eqn:Hn; [done|].
    destruct (candidate_matches _ _ _ _ _ _ _ _) eqn:Hm.
    + destruct (sp_images item) as [|url urls] eqn:Hi; [done|].
      intros [= <- <-]. split; [done|].
      eexists item, _. rewrite Hn. split; [left|]. split; [done|].
      simpl. rewrite Hi. done.
    + intros H. destruct (IH H) as [-> Hr]. split; [done|].
      destruct r.
      * destruct Hr as (item' & c & Hin & Hc).
        exists item', c. split; [by right|done].
      * intros item' c [->|Hin]%elem_of_cons.
        -- rewrite Hn. intros [= <-]. done.
        -- by apply Hr.
Qed.

Lemma spotify_items_state a al y items s :
  state_of (spotify_items token_sort_ratio a al y items s) = s.
Proof.
  induction items as [|item items IH]; simpl; [done|].
  destruct (sp_artists item); [done|].
  destruct (candidate_matches _ _ _ _ _ _ _ _); [|done].
  by destruct (sp_images item).
Qed.

Lemma searched_until_hit_cons p tok a al y v vs r n :
  (forall c, offered_at w p tok a v c -> verify token_sort_ratio a al y c = false) ->
  searched_until_hit p tok a al y vs r n ->
  searched_until_hit p tok a al y (v :: vs) r (S n).
Proof.
  intros Hv [Hno Hr]. split.
  - intros i v' c Hi Hl Ho. destruct i as [|i]; simpl in Hl.
    + injection Hl as <-. by apply Hv.
    + apply (Hno i v' c); [|done|done].
      destruct r; [|lia].
      destruct Hr as (? & ? & _ & Hn & _). simpl in Hi. lia.
  - destruct r; [|simpl; by f_equal].
    destruct Hr as (v0 & c & Hl & Hn & Hrest).
    exists v0, c. split; [|split; [lia|done]].
    destruct n; [lia|]. done.
Qed.

Lemma spotify_variants_inv a al tok y vs s r s' :
  spotify_variants token_sort_ratio w a al tok y vs s = Ok r s' ->
  exists n,
    s' = add_log s (List.map (EvSearch Spotify a) (take n vs)) /\
    searched_until_hit Spotify (Some tok) a al y vs r n.
Proof.
  revert s. induction vs as [|variant vs IH]; intros s; simpl.
  - intros [= <- <-]. exists 0%nat. rewrite add_log_nil. split; [done|].
    split; [|done]. intros i v c Hi. lia.
  - unfold bind at 1. rewrite emit_eq. unfold bind at 1.
    destruct (spotify_search w tok (spotify_q variant a)) as [|st items] eqn:Hs;
      simpl; [done|].
    assert (Hrest :
      (forall c, offered_at w Spotify (Some tok) a variant c ->
         verify token_sort_ratio a al y c = false) ->
      spotify_variants token_sort_ratio w a al tok y vs
        (add_log s [EvSearch Spotify a variant]) = Ok r s' ->
      exists n,
        s' = add_log s (List.map (EvSearch Spotify a) (take n (variant :: vs))) /\
        searched_until_hit Spotify (Some tok) a al y (variant :: vs) r n).
    { intros Hv H. destruct (IH _ H) as (n & -> & Hr). exists (S n). split.
      - simpl. by rewrite add_log_app.
      - by apply searched_until_hit_cons. }
    destruct (st =? 200) eqn:Hst.
    2:{ apply Hrest. intros c (token & items' & item & [= <-] & Hs' & _).
        rewrite Hs in Hs'. injection Hs' as -> _. done. }
    apply Z.eqb_eq in Hst. subst st.
    unfold bind.
    destruct (spotify_items _ _ _ _ _ _) as [r0 s0|] eqn:Hit; [|done].
    apply spotify_items_inv in Hit. destruct Hit as [-> Hr0].
    destruct r0 as [url|].
    + intros [= <- <-]. exists 1%nat. split; [done|].
      destruct Hr0 as (item & c & Hin & Hc & Hv & Hu).
      split; [intros i v c' Hi; simpl in Hi; lia|].
      exists variant, c. split; [done|]. split; [lia|]. split; [|done].
      by exists tok, items, item.
    + apply Hrest. intros c (token & items' & item & [= <-] & Hs' & Hin & Hc).
      rewrite Hs in Hs'. injection Hs' as <-. by eapply Hr0.
Qed.

Lemma deezer_variants_inv a al tok y vs s r s' :
  deezer_variants token_sort_ratio w a al y vs s = Ok r s' ->
  exists n,
    s' = add_log s (List.map (EvSearch Deezer a) (take n vs)) /\
    searched_until_hit Deezer tok a al y vs r n.
Proof.
  revert s. induction vs as [|variant vs IH]; intros s; simpl.
  - intros [= <- <-]. exists 0%nat. rewrite add_log_nil. split; [done|].
    split; [|done]. intros i v c Hi. lia.
  - unfold bind at 1. rewrite emit_eq. unfold bind at 1.
    destruct (deezer_search w (deezer_url a variant)) as [|st items] eqn:Hs;
      simpl; [done|].
    assert (Hrest :
      (forall c, offered_at w Deezer tok a variant c ->
         verify token_sort_ratio a al y c = false) ->
      deezer_variants token_sort_ratio w a al y vs
        (add_log s [EvSearch Deezer a variant]) = Ok r s' ->
      exists n,
        s' = add_log s (List.map (EvSearch Deezer a) (take n (variant :: vs))) /\
        searched_until_hit Deezer tok a al y (variant :: vs) r n).
    { intros Hv H. destruct (IH _ H) as (n & -> & Hr). exists (S n). split.
      - simpl. by rewrite add_log_app.
      - by apply searched_until_hit_cons. }
    destruct (st =? 200) eqn:Hst.
    2:{ apply Hrest. intros c (item & items' & Hs' & _).
        rewrite Hs in Hs'. injection Hs' as -> _. done. }
    apply Z.eqb_eq in Hst. subst st.
    destruct items as [|item items].
    { apply Hrest. intros c (item & items' & Hs' & _).
      rewrite Hs in Hs'. done. }
    destruct (candidate_matches _ _ _ _ _ _ _ _) eqn:Hm.
    + intros [= <- <-]. exists 1%nat. split; [done|].
      split; [intros i v c' Hi; simpl in Hi; lia|].
      exists variant, (candidate_of_deezer item).
      split; [done|]. split; [lia|]. split; [by exists item, items|done].
    + apply Hrest. intros c (item' & items' & Hs' & ->).
      rewrite Hs in Hs'. injection Hs' as <- _. done.
Qed.

Lemma fetch_cover_lastfm_inv a al s r s' :
  fetch_cover_lastfm a al s = Ok r s' ->
  s' = add_log s [EvSearch LastFm a al] /\
  forall url, r = Some url ->
    exists images,
      lastfm_getinfo w (LASTFM_API_KEY w) a al = Response 200 (Some images) /\
      lastfm_images images = Some url.
Proof.
  unfold fetch_cover_lastfm, bind. rewrite emit_eq.
  destruct (lastfm_getinfo w (LASTFM_API_KEY w) a al) as [|st body]; simpl; [done|].
  destruct (st =? 200) eqn:Hst.
  - apply Z.eqb_eq in Hst. subst st.
    destruct body as [images|]; intros [= <- <-]; (split; [done|]); [|done].
    intros url Hurl. by exists images.
  - intros [= <- <-]. done.
Qed.

Lemma fetch_cover_discogs_inv a al s r s' :
  fetch_cover_discogs a al s = Ok r s' ->
  s' = add_log s [EvSearch Discogs a al] /\
  forall url, r = Some url ->
    exists count uris releases,
      discogs_search w (DISCOGS_API_TOKEN w) al a
        = DiscogsResults count ((url :: uris) :: releases) /\ 0 < count.
Proof.
  unfold fetch_cover_discogs, bind. rewrite emit_eq.
  destruct (discogs_search w (DISCOGS_API_TOKEN w) al a) as [|count releases];
    [intros [= <- <-]; done|].
  destruct (0 <? count) eqn:Hc; [|intros [= <- <-]; done].
  apply Z.ltb_lt in Hc.
  destruct releases as [|[|uri uris] releases]; intros [= <- <-];
    (split; [done|]); try done.
  intros url [= <-]. by exists count, uris, releases.
Qed.

Lemma fetch_cover_discogs_returns a al s :
  exists r, fetch_cover_discogs a al s = Ok r (add_log s [EvSearch Discogs a al]).
Proof.
  unfold fetch_cover_discogs, bind. rewrite emit_eq.
  destruct (discogs_search w (DISCOGS_API_TOKEN w) al a) as [|count releases];
    [by eexists|].
  destruct (0 <? count); [|by eexists].
  destruct releases as [|[|uri uris] releases]; by eexists.
Qed.

Lemma fetch_cover_musicbrainz_inv a al s r s' :
  fetch_cover_musicbrainz a al s = Ok r s' ->
  (exists heads,
     s' = add_log s (EvSearch MusicBrainz a al :: List.map EvHead heads)) /\
  forall url, r = Some url ->
    exists release_id ids st,
      musicbrainz_release w (musicbrainz_query a al)
        = Response 200 (Some (release_id :: ids)) /\
      url = coverart_url release_id /\
      coverart_head w url = Response st tt /\ st <> 404.
Proof.
  unfold fetch_cover_musicbrainz, bind. rewrite emit_eq.
  destruct (musicbrainz_release w (musicbrainz_query a al)) as [|st body];
    simpl; [done|].
  destruct (st =? 200) eqn:Hst.
  2:{ intros [= <- <-]. split; [by exists []|done]. }
  apply Z.eqb_eq in Hst. subst st.
  destruct body as [[|release_id ids]|].
  1,3: intros [= <- <-]; split; [by exists []|done].
  assert (Hlog : forall s0 : state,
    {| fs := fs (add_log s0 [EvSearch MusicBrainz a al]);
       log := log (add_log s0 [EvSearch MusicBrainz a al])
                ++ [EvHead (coverart_url release_id)] |}
    = add_log s0 (EvSearch MusicBrainz a al
                    :: List.map EvHead [coverart_url release_id])).
  { intros s0. unfold add_log; simpl. by rewrite <- app_assoc. }
  rewrite Hlog.
  destruct (coverart_head w (coverart_url release_id)) as [|hst []] eqn:Hh;
    simpl; [done|].
  destruct (hst =? 404) eqn:H404; intros [= <- <-].
  - split; [|done]. by exists [coverart_url release_id].
  - split; [by exists [coverart_url release_id]|].
    intros url [= <-]. exists release_id, ids, hst.
    apply Z.eqb_neq in H404. done.
Qed.

(** Every request a provider function sends is one to its own service,
    whatever the outcome. *)
Lemma spotify_variants_events a al tok y vs s :
  exists evs,
    state_of (spotify_variants token_sort_ratio w a al tok y vs s) = add_log s evs /\
    Forall (fun e => event_provider e = Some Spotify) evs.
Proof.
  revert s. induction vs as [|variant vs IH]; intros s; simpl.
  - exists []. by rewrite add_log_nil.
  - unfold bind at 1. rewrite emit_eq. unfold bind at 1.
    assert (Hone : Forall (fun e => event_provider e = Some Spotify)
                     [EvSearch Spotify a variant]) by (by constructor).
    destruct (spotify_search w tok (spotify_q variant a)) as [|st items];
      simpl; [by eexists|].
    assert (Hrest : exists evs,
      state_of (spotify_variants token_sort_ratio w a al tok y vs
                  (add_log s [EvSearch Spotify a variant])) = add_log s evs /\
      Forall (fun e => event_provider e = Some Spotify) evs).
    { destruct (IH (add_log s [EvSearch Spotify a variant])) as (evs & -> & Hev).
      eexists. rewrite add_log_app. split; [done|]. by apply Forall_app. }
    destruct (st =? 200); [|done].
    unfold bind.
    pose proof (spotify_items_state a al y items
                  (add_log s [EvSearch Spotify a variant])) as Hst.
    destruct (spotify_items _ _ _ _ _ _) as [[url|] s0|e s0]; simpl in Hst; subst s0;
      [by eexists|done|by eexists].
Qed.

Lemma deezer_variants_events a al y vs s :
  exists evs,
    state_of (deezer_variants token_sort_ratio w a al y vs s) = add_log s evs /\
    Forall (fun e => event_provider e = Some Deezer) evs.
Proof.
  revert s. induction vs as [|variant vs IH]; intros s; simpl.
  - exists []. by rewrite add_log_nil.
  - unfold bind at 1. rewrite emit_eq. unfold bind at 1.
    assert (Hone : Forall (fun e => event_provider e = Some Deezer)
                     [EvSearch Deezer a variant]) by (by constructor).
    destruct (deezer_search w (deezer_url a variant)) as [|st items];
      simpl; [by eexists|].
    assert (Hrest : exists evs,
      state_of (deezer_variants token_sort_ratio w a al y vs
                  (add_log s [EvSearch Deezer a variant])) = add_log s evs /\
      Forall (fun e => event_provider e = Some Deezer) evs).
    { destruct (IH (add_log s [EvSearch Deezer a variant])) as (evs & -> & Hev).
      eexists. rewrite add_log_app. split; [done|]. by apply Forall_app. }
    destruct (st =? 200); [|done].
    destruct items as [|item items]; [done|].
    destruct (candidate_matches _ _ _ _ _ _ _ _); [by eexists|done].
Qed.

Lemma query_provider_events tok a al y p s :
  exists evs,
    state_of (query_provider tok a al y p s) = add_log s evs /\
    Forall (fun e => event_provider e = Some p) evs.
Proof.
  destruct p; simpl.
  - destruct (truthy tok); [apply spotify_variants_events|].
    exists []. by rewrite add_log_nil.
  - apply deezer_variants_events.
  - unfold fetch_cover_lastfm, bind. rewrite emit_eq.
    exists [EvSearch LastFm a al]. split; [|by constructor].
    destruct (lastfm_getinfo _ _ _ _) as [|st body]; simpl; [done|].
    destruct (st =? 200); [|done]. by destruct body.
  - destruct (fetch_cover_discogs_returns a al s) as [r ->].
    eexists. split; [done|]. by constructor.
  - unfold fetch_cover_musicbrainz, bind. rewrite emit_eq.
    destruct (musicbrainz_release _ _) as [|st body]; simpl;
      [exists [EvSearch MusicBrainz a al]; split; [done|by constructor]|].
    destruct (st =? 200);
      [|exists [EvSearch MusicBrainz a al]; split; [done|by constructor]].
    destruct body as [[|release_id ids]|];
      try (exists [EvSearch MusicBrainz a al]; split; [done|by constructor]).
    exists [EvSearch MusicBrainz a al; EvHead (coverart_url release_id)].
    split; [|by repeat constructor].
    assert (Hlog :
      {| fs := fs (add_log s [EvSearch MusicBrainz a al]);
         log := log (add_log s [EvSearch MusicBrainz a al])
                  ++ [EvHead (coverart_url release_id)] |}
      = add_log s [EvSearch MusicBrainz a al; EvHead (coverart_url release_id)]).
    { unfold add_log; simpl. by rewrite <- app_assoc. }
    rewrite Hlog.
    destruct (coverart_head _ _) as [|hst []]; simpl; [done|].
    by destruct (hst =? 404).
Qed.


(** *** The fallback *)

Lemma state_of_map_outcome {A B} (f : A -> B) (o : outcome A) :
  state_of (map_outcome f o) = state_of o.
Proof. by destruct o. Qed.

Lemma resolve_cover_events (q : provider -> M (option str)) ps :
  (forall p s, exists evs,
      state_of (q p s) = add_log s evs /\
      Forall (fun e => event_provider e = Some p) evs) ->
  forall s, exists evss,
    state_of (resolve_cover q ps s) = add_log s (concat evss) /\
    Forall2 (fun p evs => Forall (fun e => event_provider e = Some p) evs) ps evss.
Proof.
  intros Hq. induction ps as [|p ps IH]; intros s; simpl.
  - exists []. simpl. by rewrite add_log_nil.
  - unfold bind. destruct (Hq p s) as (evs & Hs & Hev).
    destruct (q p s) as [r s1|e s1]; simpl in Hs; subst s1.
    + destruct (truthy r).
      * exists (evs :: List.map (fun _ => []) ps). split.
        -- simpl. f_equal. clear. induction ps; simpl; [by rewrite app_nil_r|done].
        -- constructor; [done|]. clear. induction ps; constructor; done.
      * destruct (IH (add_log s evs)) as (evss & Hs & Hall).
        exists (evs :: evss). split; [|by constructor].
        rewrite Hs. simpl. by rewrite add_log_app.
    + exists (evs :: List.map (fun _ => []) ps). split.
      * simpl. f_equal. clear. induction ps; simpl; [by rewrite app_nil_r|done].
      * constructor; [done|]. clear. induction ps; constructor; done.
Qed.

Lemma resolve_cover_found (q : provider -> M (option str)) ps s r s' :
  resolve_cover q ps s = Ok r s' ->
  r = None \/
  truthy r = true /\ exists p s0 s1, p ∈ ps /\ q p s0 = Ok r s1.
Proof.
  revert s. induction ps as [|p ps IH]; intros s; simpl.
  - intros [= <- <-]. by left.
  - unfold bind. destruct (q p s) as [r0 s1|e s1] eqn:Hq; [|done].
    destruct (truthy r0) eqn:Ht.
    + intros [= <- <-]. right. split; [done|].
      exists p, s, s1. split; [left|done].
    + intros H. destruct (IH _ H) as [->|[Hr (p' & s0 & s2 & Hin & Hp)]];
        [by left|].
      right. split; [done|]. exists p', s0, s2. split; [by right|done].
Qed.

(** The chain hands over a cover URL with the record as it was, or no URL
    with the record carrying the placeholder. *)
Lemma provider_chain_result tok a al y rec s url rec' s' :
  provider_chain tok a al y rec s = Ok (url, rec') s' ->
  (truthy url = true /\ rec' = rec) \/
  (truthy url = false /\ rec' = set_coverSrc rec default_cover).
Proof.
  unfold provider_chain, bind, ret.
  repeat first
    [ progress simpl
    | match goal with H : truthy _ = _ |- _ => rewrite H end
    | match goal with |- context [truthy ?a] => destruct (truthy a) eqn:? end
    | step ];
  try done; intros [= <- <- <-]; auto; congruence.
Qed.

Lemma provider_chain_state tok a al y rec s :
  exists evss,
    state_of (provider_chain tok a al y rec s) = add_log s (concat evss) /\
    Forall2 (fun p evs => Forall (fun e => event_provider e = Some p) evs)
      priority evss.
Proof.
  rewrite <- (state_of_map_outcome (fun r => found (fst r))), chain_refines.
  apply resolve_cover_events. intros p s0. apply query_provider_events.
Qed.

(** *** The download *)

Lemma download_and_resize_image_inv url output_path s ok s' :
  download_and_resize_image w url output_path s = Ok ok s' ->
  (ok = true /\ s' = saved s url output_path /\
   exists content, image_get w url = Response 200 content /\
     imaging_completes w content output_path = true) \/
  (ok = false /\ s' = add_log s [EvDownload url] /\
   (image_get w url = ConnectionFailed \/
    exists st content, image_get w url = Response st content /\ st <> 200)).
Proof.
  unfold download_and_resize_image, bind. rewrite emit_eq.
  destruct (image_get w url) as [|st content];
    [intros [= <- <-]; right; auto|].
  destruct (st =? 200) eqn:Hst.
  - apply Z.eqb_eq in Hst. subst st.
    destruct (imaging_completes w content output_path) eqn:Him; [|done].
    intros [= <- <-]. left. split; [done|]. split; [done|]. by exists content.
  - intros [= <- <-]. right. split; [done|]. split; [done|]. right.
    apply Z.eqb_neq in Hst. by exists st, content.
Qed.


(** *** One record *)

Lemma process_record_valid tok genre r s :
  valid_cover (fs s) r = true ->
  process_record tok genre r s = Ok r s.
Proof.
  unfold valid_cover, process_record, bind, os_path_exists, ret.
  intros [Ht Hin]%andb_true_iff. rewrite Ht, Hin. done.
Qed.

Lemma set_coverSrc_twice r u v :
  set_coverSrc (set_coverSrc r u) v = set_coverSrc r v.
Proof. reflexivity. Qed.

Lemma process_record_cached tok genre r s :
  valid_cover (fs s) r = false ->
  cached slugify (fs s) genre r = true ->
  process_record tok genre r s
  = Ok (set_coverSrc r (slash :: output_path_of slugify genre (artist r) (album r))) s.
Proof.
  unfold valid_cover, cached, process_record, bind, os_path_exists, ret.
  intros Hv Hc.
  destruct (truthy (coverSrc r)); simpl in *; rewrite ?Hv, Hc; done.
Qed.

Lemma process_record_lookup tok genre r s :
  valid_cover (fs s) r = false ->
  cached slugify (fs s) genre r = false ->
  process_record tok genre r s
  = match provider_chain tok (artist r) (album r) (year r)
            (with_coverSrc_field r) s with
    | Ok (cover_url, r') s1 =>
        if truthy cover_url then
          match download_and_resize_image w (default [] cover_url)
                  (output_path_of slugify genre (artist r) (album r)) s1 with
          | Ok true s2 =>
              Ok (set_coverSrc r'
                    (slash :: output_path_of slugify genre (artist r) (album r))) s2
          | Ok false s2 => Ok r' s2
          | Raise e s2 => Raise e s2
          end
        else Ok r' s1
    | Raise e s1 => Raise e s1
    end.
Proof.
  unfold valid_cover, cached, process_record, with_coverSrc_field, bind,
    os_path_exists, ret.
  intros Hv Hc.
  destruct (truthy (coverSrc r)); simpl in *; rewrite ?Hv, Hc;
    (destruct (provider_chain _ _ _ _ _ _) as [[url r'] s1|]; [|done]);
    simpl; (destruct (truthy url); [|done]);
    (destruct (download_and_resize_image _ _ _ _) as [[] ?|]; done).
Qed.

Lemma process_record_settled tok genre r s :
  settled slugify (fs s) genre r = true ->
  process_record tok genre r s = Ok (settle slugify (fs s) genre r) s.
Proof.
  unfold settled, settle. destruct (valid_cover (fs s) r) eqn:Hv; simpl.
  - intros _. by apply process_record_valid.
  - by apply process_record_cached.
Qed.

Lemma settle_settled disk genre r :
  settled slugify disk genre r = true ->
  settled slugify disk genre (settle slugify disk genre r) = true /\
  settle slugify disk genre (settle slugify disk genre r)
  = settle slugify disk genre r.
Proof.
  unfold settled, settle. destruct (valid_cover disk r) eqn:Hv; simpl.
  - intros _. by rewrite Hv.
  - intros Hc. split.
    + apply orb_true_iff. by right.
    + by destruct (valid_cover disk (set_coverSrc r _)).
Qed.

Lemma process_records_settled tok genre data s :
  Forall (fun r => settled slugify (fs s) genre r = true) data ->
  process_records tok genre data s
  = Ok (List.map (settle slugify (fs s) genre) data) s.
Proof.
  induction 1 as [|r data Hr Hdata IH]; simpl; [done|].
  unfold bind. by rewrite process_record_settled, IH.
Qed.


(** *** Verified candidates *)

Lemma verify_spec a al y c :
  verify token_sort_ratio a al y c = true
  <-> passes_verification token_sort_ratio a al y c.
Proof.
  unfold verify, candidate_matches, passes_verification, fuzzy_match.
  rewrite !andb_true_iff, !Z.leb_le. split.
  - intros [[[Ha Hal] Ht] Hy]. repeat split; [done|done| |].
    + destruct (albumType c) as [t|]; [|done].
      exists t. split; [done|]. by apply bool_decide_eq_true in Ht.
    + intros yr ->. by apply bool_decide_eq_true in Hy.
  - intros (Ha & Hal & (t & Ht & Hin) & Hy). repeat split; [done|done| |].
    + rewrite Ht. by apply bool_decide_eq_true.
    + destruct y as [yr|]; [|done]. apply bool_decide_eq_true. by apply Hy.
Qed.

Lemma query_provider_verified tok a al y p s url s' :
  p = Spotify \/ p = Deezer ->
  query_provider tok a al y p s = Ok (Some url) s' ->
  exists c, offered w p tok a al c /\
    verify token_sort_ratio a al y c = true /\ imageUrl c = Some url.
Proof.
  intros [-> | ->]; simpl.
  - destruct tok as [[|ch token]|]; simpl; try done.
    intros H. apply spotify_variants_inv in H.
    destruct H as (n & _ & _ & variant & c & Hl & _ & Ho & Hv & Hu).
    exists c. split; [|done].
    exists variant. split; [by eapply list_elem_of_lookup_2|done].
  - intros H. apply (deezer_variants_inv _ _ tok) in H.
    destruct H as (n & _ & _ & variant & c & Hl & _ & Ho & Hv & Hu).
    exists c. split; [|done].
    exists variant. split; [by eapply list_elem_of_lookup_2|done].
Qed.

(** C1 (as amended).  A cover URL the chain resolves is that of a Spotify
    or Deezer candidate that passed the match verification (similarity of
    the artist names at least 90, of the album titles at least 85, album
    type among album, ep, compilation, live, and the year check), or it is
    a URL taken as the service gives it: the extralarge image of Last.fm,
    the first image of the first Discogs release, or the Cover Art Archive
    address of the first MusicBrainz release. *)
Theorem resolved_cover_sources tok a al y rec s url rec' s' :
  provider_chain tok a al y rec s = Ok (url, rec') s' ->
  truthy url = true ->
  (exists p c,
     offered w p tok a al c /\
     passes_verification token_sort_ratio a al y c /\ imageUrl c = url)
  \/ (exists images,
        lastfm_getinfo w (LASTFM_API_KEY w) a al = Response 200 (Some images) /\
        lastfm_images images = url)
  \/ (exists count uri uris releases,
        discogs_search w (DISCOGS_API_TOKEN w) al a
          = DiscogsResults count ((uri :: uris) :: releases) /\
        0 < count /\ url = Some uri)
  \/ (exists release_id ids st,
        musicbrainz_release w (musicbrainz_query a al)
          = Response 200 (Some (release_id :: ids)) /\
        url = Some (coverart_url release_id) /\
        coverart_head w (coverart_url release_id) = Response st tt /\ st <> 404).
Proof.
  intros Hchain Ht.
  assert (Href : resolve_cover (query_provider tok a al y) priority s = Ok url s').
  { rewrite <- (chain_refines tok a al y rec s), Hchain. simpl. unfold found. by rewrite Ht. }
  apply resolve_cover_found in Href.
  destruct Href as [->|[_ (p & s0 & s1 & _ & Hq)]]; [done|].
  destruct url as [u|]; [|done].
  destruct p.
  - left. destruct (query_provider_verified tok a al y Spotify s0 u s1)
      as (c & Ho & Hv & Hu); [by left|done|].
    exists Spotify, c. split; [done|]. split; [by apply verify_spec|done].
  - left. destruct (query_provider_verified tok a al y Deezer s0 u s1)
      as (c & Ho & Hv & Hu); [by right|done|].
    exists Deezer, c. split; [done|]. split; [by apply verify_spec|done].
  - right; left. simpl in Hq. apply fetch_cover_lastfm_inv in Hq.
    destruct Hq as [_ Hq]. destruct (Hq u eq_refl) as (images & ? & ?).
    by exists images.
  - right; right; left. simpl in Hq. apply fetch_cover_discogs_inv in Hq.
    destruct Hq as [_ Hq]. destruct (Hq u eq_refl) as (count & uris & rels & ? & ?).
    by exists count, u, uris, rels.
  - right; right; right. simpl in Hq. apply fetch_cover_musicbrainz_inv in Hq.
    destruct Hq as [_ Hq].
    destruct (Hq u eq_refl) as (id & ids & st & ? & -> & ? & ?).
    by exists id, ids, st.
Qed.


(** C3 (as amended).  Spotify and Deezer search for the album title, then
    for the title followed by a space and each of "Deluxe", "Remastered",
    "Anniversary", "Special Edition", "Expanded Edition", in that order,
    and stop at the first title that gives a verified candidate; Last.fm,
    Discogs and MusicBrainz search for the album title alone. *)
Theorem titles_searched tok a al y p s r s' :
  query_provider tok a al y p s = Ok r s' ->
  (p = Spotify -> truthy tok = true) ->
  exists n heads,
    s' = add_log s (List.map (EvSearch p a) (take n (titles_tried p al))
                      ++ List.map EvHead heads) /\
    (0 < n)%nat /\
    match p with
    | Spotify | Deezer =>
        searched_until_hit p tok a al y (titles_tried p al) r n /\ heads = []
    | _ => n = 1%nat
    end.
Proof.
  intros Hq Htok.
  assert (Hpos : forall r n,
    searched_until_hit p tok a al y (titles_tried Spotify al) r n -> (0 < n)%nat).
  { intros r0 n [_ Hr]. destruct r0; [|subst n; simpl; lia].
    destruct Hr as (? & ? & _ & ? & _). done. }
  destruct p; simpl in Hq.
  - rewrite (Htok eq_refl) in Hq.
    destruct tok as [[|ch token]|]; [discriminate (Htok eq_refl)| |discriminate (Htok eq_refl)].
    simpl in Hq. apply spotify_variants_inv in Hq. destruct Hq as (n & -> & Hn).
    exists n, []. rewrite app_nil_r. split; [done|]. split; [by eapply Hpos|done].
  - apply (deezer_variants_inv _ _ tok) in Hq. destruct Hq as (n & -> & Hn).
    exists n, []. rewrite app_nil_r. split; [done|]. split; [by eapply Hpos|done].
  - apply fetch_cover_lastfm_inv in Hq. destruct Hq as [-> _].
    exists 1%nat, []. by split; [|split; [lia|]].
  - apply fetch_cover_discogs_inv in Hq. destruct Hq as [-> _].
    exists 1%nat, []. by split; [|split; [lia|]].
  - apply fetch_cover_musicbrainz_inv in Hq. destruct Hq as [[heads ->] _].
    exists 1%nat, heads. by split; [|split; [lia|]].
Qed.

Lemma resolve_cover_none_iff (q : provider -> M (option str)) ps s s' :
  resolve_cover q ps s = Ok None s' <-> handed_over q ps s s'.
Proof.
  revert s. induction ps as [|p ps IH]; intros s; simpl.
  { unfold ret. split; [by intros [= ->]|by intros ->]. }
  unfold bind. destruct (q p s) as [r s1|e s1] eqn:Hq.
  - destruct (truthy r) eqn:Ht.
    + unfold ret. split.
      * intros [= -> _]. discriminate Ht.
      * intros (r0 & s0 & [= <- <-] & Ht0 & _). congruence.
    + rewrite IH. split.
      * intros H. by exists r, s1.
      * by intros (r0 & s0 & [= <- <-] & _ & H).
  - split; [done|]. by intros (? & ? & ? & _).
Qed.

Lemma resolve_cover_found_iff (q : provider -> M (option str)) ps s url s' :
  resolve_cover q ps s = Ok (Some url) s' <->
  truthy (Some url) = true /\
  exists ps1 p ps2 s0,
    ps = ps1 ++ p :: ps2 /\ handed_over q ps1 s s0 /\ q p s0 = Ok (Some url) s'.
Proof.
  revert s. induction ps as [|p ps IH]; intros s; simpl.
  { unfold ret. split; [done|].
    intros (_ & ps1 & p & ps2 & s0 & Heq & _). by destruct ps1. }
  unfold bind. destruct (q p s) as [r s1|e s1] eqn:Hq.
  - destruct (truthy r) eqn:Ht.
    + unfold ret. split.
      * intros [= -> ->]. split; [done|]. by exists [], p, ps, s.
      * intros (_ & [|p1 ps1] & p0 & ps2 & s0 & Heq & Hh & Hp).
        -- simpl in Heq, Hh. injection Heq as <- _. subst s0. congruence.
        -- simpl in Heq, Hh. injection Heq as <- _.
           destruct Hh as (r0 & s2 & Hq0 & Ht0 & _). congruence.
    + rewrite IH. split.
      * intros (Hu & ps1 & p0 & ps2 & s0 & -> & Hh & Hp). split; [done|].
        exists (p :: ps1), p0, ps2, s0. split; [done|]. split; [|done].
        by exists r, s1.
      * intros (Hu & [|p1 ps1] & p0 & ps2 & s0 & Heq & Hh & Hp).
        -- simpl in Heq, Hh. injection Heq as <- _. subst s0.
           rewrite Hq in Hp. injection Hp as -> _.
           destruct (eq_true_false_abs _ Hu Ht).
        -- simpl in Heq, Hh. injection Heq as <- ->.
           destruct Hh as (r0 & s2 & Hq0 & _ & Hh).
           rewrite Hq in Hq0. injection Hq0 as <- <-.
           split; [done|]. by exists ps1, p0, ps2, s0.
  - split; [done|].
    intros (_ & [|p1 ps1] & p0 & ps2 & s0 & Heq & Hh & Hp).
    + simpl in Heq, Hh. injection Heq as <- _. subst s0. congruence.
    + simpl in Heq, Hh. injection Heq as <- _.
      destruct Hh as (r0 & s2 & Hq0 & _). congruence.
Qed.

Lemma resolve_cover_raise_iff (q : provider -> M (option str)) ps s e s' :
  resolve_cover q ps s = Raise e s' <->
  exists ps1 p ps2 s0,
    ps = ps1 ++ p :: ps2 /\ handed_over q ps1 s s0 /\ q p s0 = Raise e s'.
Proof.
  revert s. induction ps as [|p ps IH]; intros s; simpl.
  { unfold ret. split; [done|].
    intros (ps1 & p & ps2 & s0 & Heq & _). by destruct ps1. }
  unfold bind. destruct (q p s) as [r s1|e1 s1] eqn:Hq.
  - destruct (truthy r) eqn:Ht.
    + unfold ret. split; [done|].
      intros ([|p1 ps1] & p0 & ps2 & s0 & Heq & Hh & Hp).
      * simpl in Heq, Hh. injection Heq as <- _. subst s0. congruence.
      * simpl in Heq, Hh. injection Heq as <- _.
        destruct Hh as (r0 & s2 & Hq0 & Ht0 & _). congruence.
    + rewrite IH. split.
      * intros (ps1 & p0 & ps2 & s0 & -> & Hh & Hp).
        exists (p :: ps1), p0, ps2, s0. split; [done|]. split; [|done].
        by exists r, s1.
      * intros ([|p1 ps1] & p0 & ps2 & s0 & Heq & Hh & Hp).
        -- simpl in Heq, Hh. injection Heq as <- _. subst s0. congruence.
        -- simpl in Heq, Hh. injection Heq as <- ->.
           destruct Hh as (r0 & s2 & Hq0 & _ & Hh).
           rewrite Hq in Hq0. injection Hq0 as <- <-.
           by exists ps1, p0, ps2, s0.
  - split.
    + intros [= <- <-]. by exists [], p, ps, s.
    + intros ([|p1 ps1] & p0 & ps2 & s0 & Heq & Hh & Hp).
      * simpl in Heq, Hh. injection Heq as <- _. subst s0. congruence.
      * simpl in Heq, Hh. injection Heq as <- _.
        destruct Hh as (r0 & s2 & Hq0 & _). congruence.
Qed.

Lemma resolve_skipping_agrees (q : provider -> M (option str)) ps s :
  (forall e s', resolve_cover q ps s <> Raise e s') ->
  resolve_skipping q ps s = resolve_cover q ps s.
Proof.
  revert s. induction ps as [|p ps IH]; intros s; simpl; [done|].
  unfold bind. destruct (q p s) as [r s1|e s1]; [|by intros H; destruct (H e s1)].
  destruct (truthy r); [done|apply IH].
Qed.

Lemma map_outcome_raise {A B} (f : A -> B) (o : outcome A) e s' :
  map_outcome f o = Raise e s' <-> o = Raise e s'.
Proof. destruct o; simpl; split; congruence. Qed.

(** C4 (where the code departs from it).  The chain of [process_json]
    asks Spotify (when there is a token), Deezer, Last.fm, Discogs and
    MusicBrainz in this order, and its requests come grouped by provider in
    this order.  A provider that returns nothing hands over to the next; the
    first that returns a URL ends the search, in the state its own requests
    left, so that no provider after it is asked; every provider returning
    nothing, the chain returns nothing.  But a provider whose request raises
    is not passed over: the chain ends in that exception, exactly then, and
    no provider after it is asked.  So the chain is the one the
    specification words, in which a failed provider is skipped, only in the
    runs where no provider raises. *)
Theorem chain_follows_priority tok a al y rec s :
  map_outcome (fun r => found (fst r)) (provider_chain tok a al y rec s)
  = resolve_cover (query_provider tok a al y)
      [Spotify; Deezer; LastFm; Discogs; MusicBrainz] s
  /\ (exists evss,
       state_of (provider_chain tok a al y rec s) = add_log s (concat evss) /\
       Forall2 (fun p evs => Forall (fun e => event_provider e = Some p) evs)
         [Spotify; Deezer; LastFm; Discogs; MusicBrainz] evss)
  /\ (forall url s',
        map_outcome (fun r => found (fst r)) (provider_chain tok a al y rec s)
        = Ok (Some url) s' <->
        truthy (Some url) = true /\
        exists ps1 p ps2 s0,
          [Spotify; Deezer; LastFm; Discogs; MusicBrainz] = ps1 ++ p :: ps2 /\
          handed_over (query_provider tok a al y) ps1 s s0 /\
          query_provider tok a al y p s0 = Ok (Some url) s')
  /\ (forall s',
        map_outcome (fun r => found (fst r)) (provider_chain tok a al y rec s)
        = Ok None s' <->
        handed_over (query_provider tok a al y)
          [Spotify; Deezer; LastFm; Discogs; MusicBrainz] s s')
  /\ (forall e s',
        provider_chain tok a al y rec s = Raise e s' <->
        exists ps1 p ps2 s0,
          [Spotify; Deezer; LastFm; Discogs; MusicBrainz] = ps1 ++ p :: ps2 /\
          handed_over (query_provider tok a al y) ps1 s s0 /\
          query_provider tok a al y p s0 = Raise e s')
  /\ ((forall e s', provider_chain tok a al y rec s <> Raise e s') ->
      map_outcome (fun r => found (fst r)) (provider_chain tok a al y rec s)
      = resolve_skipping (query_provider tok a al y)
          [Spotify; Deezer; LastFm; Discogs; MusicBrainz] s).
Proof.
  pose proof (chain_refines tok a al y rec s) as Href.
  change priority with [Spotify; Deezer; LastFm; Discogs; MusicBrainz] in Href.
  split; [exact Href|]. split; [apply provider_chain_state|].
  split; [|split; [|split]].
  - intros url s'. rewrite Href. apply resolve_cover_found_iff.
  - intros s'. rewrite Href. apply resolve_cover_none_iff.
  - intros e s'.
    rewrite <- (map_outcome_raise (fun r => found (fst r))), Href.
    apply resolve_cover_raise_iff.
  - intros Hno. rewrite Href. symmetry. apply resolve_skipping_agrees.
    intros e s' H. rewrite <- Href in H. apply map_outcome_raise in H.
    by apply (Hno e s').
Qed.


Lemma elem_of_concat {A} (x : A) (ls : list (list A)) :
  x ∈ concat ls -> exists l, x ∈ l /\ l ∈ ls.
Proof.
  induction ls as [|l ls IH]; simpl; [by intros ?%elem_of_nil|].
  intros [Hx|Hx]%elem_of_app.
  - exists l. split; [done|left].
  - destruct (IH Hx) as (l' & ? & ?). exists l'. split; [done|by right].
Qed.

Lemma resolve_cover_exhausted (q : provider -> M (option str)) :
  (forall p s0, exists res s1, q p s0 = Ok res s1 /\ truthy res = false) ->
  forall ps s, exists s', resolve_cover q ps s = Ok None s'.
Proof.
  intros Hq ps. induction ps as [|p ps IH]; intros s; simpl; [by eexists|].
  unfold bind. destruct (Hq p s) as (res & s1 & -> & ->). apply IH.
Qed.

Lemma provider_chain_exhausted tok a al y rec s :
  (forall p s0, exists res s1,
      query_provider tok a al y p s0 = Ok res s1 /\ truthy res = false) ->
  exists url s',
    provider_chain tok a al y rec s = Ok (url, set_coverSrc rec default_cover) s'
    /\ truthy url = false /\ fs s' = fs s.
Proof.
  intros Hq.
  destruct (resolve_cover_exhausted _ Hq priority s) as [s' Hres].
  rewrite <- (chain_refines tok a al y rec s) in Hres.
  destruct (provider_chain_state tok a al y rec s) as (evss & Hst & _).
  destruct (provider_chain tok a al y rec s) as [[url rec'] s1|] eqn:Hc; [|done].
  simpl in Hres, Hst. injection Hres as Hf <-. subst s1.
  assert (Ht : truthy url = false).
  { unfold found in Hf. destruct (truthy url) eqn:Ht; [|done]. by subst url. }
  destruct (provider_chain_result _ _ _ _ _ _ _ _ _ Hc) as [[Ht' _]|[_ ->]];
    [congruence|].
  by exists url, (add_log s (concat evss)).
Qed.

(** C6 (as amended).  A record that needs a lookup and for which every
    provider comes back with nothing is given the placeholder
    "/default-cover.jpg", and nothing is downloaded.  A URL that any
    provider returns, be it one of the three that verify nothing, counts as
    found: the placeholder is not written, and the download of that URL
    decides what the record gets. *)
Theorem exhausted_gets_placeholder tok genre r s :
  valid_cover (fs s) r = false ->
  cached slugify (fs s) genre r = false ->
  ((forall p s0, exists res s1,
       query_provider tok (artist r) (album r) (year r) p s0 = Ok res s1 /\
       truthy res = false) ->
   exists s',
     process_record tok genre r s = Ok (set_coverSrc r default_cover) s' /\
     coverSrc (set_coverSrc r default_cover) = Some (lit "/default-cover.jpg") /\
     fs s' = fs s /\
     forall e, e ∈ log s' ->
       e ∈ log s \/ is_search e = true \/ exists u, e = EvHead u) /\
  (forall ps1 p ps2 s0 url s1,
     [Spotify; Deezer; LastFm; Discogs; MusicBrainz] = ps1 ++ p :: ps2 ->
     handed_over (query_provider tok (artist r) (album r) (year r)) ps1 s s0 ->
     query_provider tok (artist r) (album r) (year r) p s0 = Ok (Some url) s1 ->
     truthy (Some url) = true ->
     process_record tok genre r s
     = match download_and_resize_image w url
               (output_path_of slugify genre (artist r) (album r)) s1 with
       | Ok true s2 =>
           Ok (set_coverSrc (with_coverSrc_field r)
                 (slash :: output_path_of slugify genre (artist r) (album r))) s2
       | Ok false s2 => Ok (with_coverSrc_field r) s2
       | Raise e s2 => Raise e s2
       end).
Proof.
  intros Hv Hc. split.
  - intros Hq.
    rewrite (process_record_lookup _ _ _ _ Hv Hc).
    destruct (provider_chain_state tok (artist r) (album r) (year r)
                (with_coverSrc_field r) s) as (evss & Hst & Hev).
    destruct (provider_chain_exhausted tok (artist r) (album r) (year r)
                (with_coverSrc_field r) s Hq) as (url & s' & Hch & Ht & Hfs).
    rewrite Hch in Hst |- *. rewrite Ht. simpl in Hst. subst s'.
    eexists. split; [|split; [done|split; [done|]]].
    + f_equal. unfold with_coverSrc_field. by destruct (truthy (coverSrc r)).
    + simpl. intros e [He|He]%elem_of_app; [by left|right].
      apply elem_of_concat in He. destruct He as (evs & He & Hevs).
      apply list_elem_of_lookup in Hevs. destruct Hevs as [i Hi].
      destruct (Forall2_lookup_r _ _ _ _ _ Hev Hi) as (p & _ & Hp).
      rewrite Forall_forall in Hp. specialize (Hp e He).
      destruct e; simpl in *; try done; [by left|right; by eexists].
  - intros ps1 p ps2 s0 url s1 Heq Hh Hp Ht.
    assert (Hres : resolve_cover
                     (query_provider tok (artist r) (album r) (year r))
                     priority s = Ok (Some url) s1).
    { apply resolve_cover_found_iff. split; [done|].
      by exists ps1, p, ps2, s0. }
    rewrite <- (chain_refines tok (artist r) (album r) (year r)
                  (with_coverSrc_field r) s) in Hres.
    rewrite (process_record_lookup _ _ _ _ Hv Hc).
    destruct (provider_chain tok (artist r) (album r) (year r)
                (with_coverSrc_field r) s) as [[url0 r0] s2|] eqn:Hch; [|done].
    simpl in Hres. injection Hres as Hf ->.
    assert (Hu : url0 = Some url /\ truthy url0 = true).
    { unfold found in Hf. destruct (truthy url0) eqn:Ht0; [|done]. by subst. }
    destruct Hu as [-> Ht0].
    destruct (provider_chain_result _ _ _ _ _ _ _ _ _ Hch) as [[_ ->]|[Hno _]];
      [|congruence].
    rewrite Ht0. simpl.
    by destruct (download_and_resize_image _ _ _ _) as [[] ?|].
Qed.

(** C7.  When a year is requested, Spotify and Deezer return the cover of
    a candidate only if the part of its release date before the first
    hyphen (the year of a date "YYYY-MM-DD") equals the requested year: a
    candidate of another year is rejected whatever the similarity of the
    names; when no year is requested the verification is the three other
    checks. *)
Theorem year_is_checked tok a al y p s url s' :
  p = Spotify \/ p = Deezer ->
  query_provider tok a al (Some y) p s = Ok (Some url) s' ->
  (exists c, offered w p tok a al c /\ imageUrl c = Some url /\
     release_year_of (releaseDate c) = y) /\
  (forall c, release_year_of (releaseDate c) <> y ->
     verify token_sort_ratio a al (Some y) c = false) /\
  (forall c, verify token_sort_ratio a al None c = true <->
     90 <= token_sort_ratio a (sourceArtist c) /\
     85 <= token_sort_ratio al (sourceAlbum c) /\
     exists t, albumType c = Some t /\ t ∈ ALBUM_TYPES) /\
  (forall year rest, dash ∉ year ->
     release_year_of (Some (year ++ dash :: rest)) = year).
Proof.
  intros Hp Hq. split; [|split; [|split]].
  - destruct (query_provider_verified _ _ _ _ _ _ _ _ Hp Hq) as (c & Ho & Hv & Hu).
    exists c. split; [done|]. split; [done|].
    apply verify_spec in Hv. destruct Hv as (_ & _ & _ & Hy). by apply Hy.
  - intros c Hne. destruct (verify _ _ _ _ c) eqn:Hv; [|done].
    apply verify_spec in Hv. destruct Hv as (_ & _ & _ & Hy).
    by specialize (Hy y eq_refl).
  - intros c. rewrite verify_spec. unfold passes_verification. split.
    + intros (Ha & Hal & Ht & _). done.
    + intros (Ha & Hal & Ht). by repeat split.
  - intros year rest Hd. unfold release_year_of. simpl.
    induction year as [|ch year IH]; simpl.
    + done.
    + apply not_elem_of_cons in Hd. destruct Hd as [Hch Hd].
      destruct (N.eqb ch dash) eqn:E; [apply N.eqb_eq in E; congruence|].
      f_equal. by apply IH.
Qed.

(** The two failures [download_and_resize_image] answers with [False]: the
    record keeps the [coverSrc] it came with (the empty string when it had
    none) and the loop goes on. *)
Lemma download_failure_is_survived tok genre r s url r' s1 :
  valid_cover (fs s) r = false ->
  cached slugify (fs s) genre r = false ->
  provider_chain tok (artist r) (album r) (year r) (with_coverSrc_field r) s
    = Ok (Some url, r') s1 ->
  truthy (Some url) = true ->
  (image_get w url = ConnectionFailed \/
   exists st content, image_get w url = Response st content /\ st <> 200) ->
  process_record tok genre r s
  = Ok (with_coverSrc_field r) (add_log s1 [EvDownload url]).
Proof.
  intros Hv Hc Hch Ht Hget.
  rewrite (process_record_lookup _ _ _ _ Hv Hc), Hch, Ht. simpl.
  destruct (provider_chain_result _ _ _ _ _ _ _ _ _ Hch) as [[_ ->]|[Hf _]];
    [|congruence].
  unfold download_and_resize_image, bind. rewrite emit_eq.
  destruct Hget as [->|(st & content & -> & Hst)]; [done|].
  apply Z.eqb_neq in Hst. by rewrite Hst.
Qed.

(** C8 (where the code departs from it).  When the image is fetched with
    status 200 and one of the imaging steps raises, the exception leaves
    [download_and_resize_image] and the loop: the record and all that follow
    it are not processed and nothing is written back. *)
Theorem imaging_failure_aborts tok genre r rest s url r' s1 content :
  valid_cover (fs s) r = false ->
  cached slugify (fs s) genre r = false ->
  provider_chain tok (artist r) (album r) (year r) (with_coverSrc_field r) s
    = Ok (Some url, r') s1 ->
  truthy (Some url) = true ->
  image_get w url = Response 200 content ->
  imaging_completes w content (output_path_of slugify genre (artist r) (album r))
    = false ->
  download_and_resize_image w url
      (output_path_of slugify genre (artist r) (album r)) s1
    = Raise ImagingException (add_log s1 [EvDownload url]) /\
  process_records tok genre (r :: rest) s
    = Raise ImagingException (add_log s1 [EvDownload url]).
Proof.
  intros Hv Hc Hch Ht Hget Him.
  assert (Hd : download_and_resize_image w url
      (output_path_of slugify genre (artist r) (album r)) s1
    = Raise ImagingException (add_log s1 [EvDownload url])).
  { unfold download_and_resize_image, bind. rewrite emit_eq, Hget. simpl.
    by rewrite Him. }
  split; [done|].
  simpl. unfold bind.
  rewrite (process_record_lookup _ _ _ _ Hv Hc), Hch, Ht. simpl.
  by rewrite Hd.
Qed.


(** *** Paths *)

Lemma cons_neq {A} (x : A) (l : list A) : x :: l <> l.
Proof. intros H. apply (f_equal length) in H. simpl in H. lia. Qed.

Lemma endswith_sep_app p c q :
  endswith_sep (p ++ c :: q) = endswith_sep (c :: q).
Proof.
  unfold endswith_sep. by rewrite last_app_cons.
Qed.

Lemma endswith_sep_no_slash q : q <> [] -> slash ∉ q -> endswith_sep q = false.
Proof.
  unfold endswith_sep. intros Hne Hq.
  destruct (last q) as [c|] eqn:Hl; [|done].
  apply N.eqb_neq. intros ->. apply Hq. by apply last_Some_elem_of.
Qed.

Lemma output_path_shape genre a al :
  genre <> [] -> slash ∉ genre ->
  startswith_sep (slugify (a ++ lit "_" ++ al)) = false ->
  output_path_of slugify genre a al
  = lit "bandcover/" ++ genre ++ lit "/" ++ slugify (a ++ lit "_" ++ al)
      ++ lit ".jpg".
Proof.
  intros Hne Hg Hs. unfold output_path_of, os_path_join. cbn [fold_left].
  assert (Hg0 : startswith_sep genre = false).
  { destruct genre as [|c g]; [done|]. simpl. apply N.eqb_neq. intros ->.
    apply Hg. left. }
  assert (Hf : startswith_sep (slugify (a ++ lit "_" ++ al) ++ lit ".jpg") = false).
  { destruct (slugify (a ++ lit "_" ++ al)); done. }
  unfold join_step at 2. rewrite Hg0.
  change (bool_decide (lit "bandcover" = []) || endswith_sep (lit "bandcover"))
    with false.
  cbv iota.
  unfold join_step. rewrite Hf.
  replace (lit "bandcover" ++ slash :: genre)
    with (lit "bandcover/" ++ genre) by done.
  destruct genre as [|c g]; [done|].
  rewrite endswith_sep_app, (endswith_sep_no_slash (c :: g)) by done.
  rewrite bool_decide_eq_false_2 by done.
  cbn [orb]. rewrite <- !app_assoc. done.
Qed.

Lemma provider_chain_fs tok a al y rec s r s' :
  provider_chain tok a al y rec s = Ok r s' -> fs s' = fs s.
Proof.
  intros H. destruct (provider_chain_state tok a al y rec s) as (evss & Hst & _).
  rewrite H in Hst. simpl in Hst. by subst s'.
Qed.

Lemma coverSrc_with_field r :
  coverSrc (with_coverSrc_field r) = coverSrc r \/
  coverSrc (with_coverSrc_field r) = Some [].
Proof. unfold with_coverSrc_field. destruct (truthy (coverSrc r)); auto. Qed.

(** C10.  A download that goes through saves the file at the output
    path (with the directories above it) and writes into [coverSrc] that
    path with a slash put before it; a cache hit writes the same string and
    touches nothing.  These are the only runs of the loop body that change
    the disk or write an output path, the other values it leaves being the
    one the record had, the empty string and the placeholder.  The file is
    saved at, and looked for under, the output path itself,
    "bandcover/<category>/<slug>.jpg": the two strings always differ. *)
Theorem coverSrc_is_rooted_output_path tok genre r s :
  (forall url r0 s1 content,
     valid_cover (fs s) r = false ->
     cached slugify (fs s) genre r = false ->
     provider_chain tok (artist r) (album r) (year r) (with_coverSrc_field r) s
       = Ok (Some url, r0) s1 ->
     truthy (Some url) = true ->
     image_get w url = Response 200 content ->
     imaging_completes w content
       (output_path_of slugify genre (artist r) (album r)) = true ->
     download_and_resize_image w url
         (output_path_of slugify genre (artist r) (album r)) s1
       = Ok true (saved s1 url (output_path_of slugify genre (artist r) (album r)))
     /\ process_record tok genre r s
        = Ok (set_coverSrc r0
                (slash :: output_path_of slugify genre (artist r) (album r)))
             (saved s1 url (output_path_of slugify genre (artist r) (album r)))
     /\ coverSrc (set_coverSrc r0
                    (slash :: output_path_of slugify genre (artist r) (album r)))
        = Some (slash :: output_path_of slugify genre (artist r) (album r))
     /\ output_path_of slugify genre (artist r) (album r)
          ∈ fs (saved s1 url (output_path_of slugify genre (artist r) (album r)))
     /\ output_path_of slugify genre (artist r) (album r) ∉ fs s) /\
  (forall r' s',
     process_record tok genre r s = Ok r' s' ->
     (valid_cover (fs s) r = false -> cached slugify (fs s) genre r = true ->
        coverSrc r'
        = Some (slash :: output_path_of slugify genre (artist r) (album r))
        /\ s' = s) /\
     (fs s' <> fs s ->
        coverSrc r'
        = Some (slash :: output_path_of slugify genre (artist r) (album r))
        /\ output_path_of slugify genre (artist r) (album r) ∈ fs s'
        /\ output_path_of slugify genre (artist r) (album r) ∉ fs s) /\
     (coverSrc r' = coverSrc r \/ coverSrc r' = Some [] \/
      coverSrc r' = Some default_cover \/
      coverSrc r'
      = Some (slash :: output_path_of slugify genre (artist r) (album r)))) /\
  slash :: output_path_of slugify genre (artist r) (album r)
    <> output_path_of slugify genre (artist r) (album r) /\
  (genre <> [] -> slash ∉ genre ->
   startswith_sep (slugify (artist r ++ lit "_" ++ album r)) = false ->
   output_path_of slugify genre (artist r) (album r)
   = lit "bandcover/" ++ genre ++ lit "/"
       ++ slugify (artist r ++ lit "_" ++ album r) ++ lit ".jpg").
Proof.
  assert (Hshape := output_path_shape genre (artist r) (album r)).
  assert (Hneq := cons_neq slash (output_path_of slugify genre (artist r) (album r))).
  split; [|split; [|done]].
  { intros url r0 s1 content Hv Hc Hch Ht Himg Hok.
    assert (Hdl : download_and_resize_image w url
                    (output_path_of slugify genre (artist r) (album r)) s1
                  = Ok true
                      (saved s1 url
                         (output_path_of slugify genre (artist r) (album r)))).
    { unfold download_and_resize_image, bind. rewrite emit_eq, Himg. simpl.
      by rewrite Hok. }
    split; [done|]. split; [|split; [done|split]].
    - rewrite (process_record_lookup _ _ _ _ Hv Hc), Hch, Ht. simpl.
      by rewrite Hdl.
    - simpl. apply elem_of_union. left. apply elem_of_union. right.
      by apply elem_of_singleton.
    - unfold cached in Hc. by apply bool_decide_eq_false in Hc. }
  intros r' s' H.
  destruct (valid_cover (fs s) r) eqn:Hv.
  { rewrite (process_record_valid _ _ _ _ Hv) in H. injection H as <- <-.
    repeat split; try done. by left. }
  destruct (cached slugify (fs s) genre r) eqn:Hc.
  { rewrite (process_record_cached _ _ _ _ Hv Hc) in H. injection H as <- <-.
    repeat split; try done. do 3 right. done. }
  rewrite (process_record_lookup _ _ _ _ Hv Hc) in H.
  destruct (provider_chain _ _ _ _ _ _) as [[url r0] s1|] eqn:Hch; [|done].
  pose proof (provider_chain_fs _ _ _ _ _ _ _ _ Hch) as Hfs.
  assert (Hr0 : coverSrc r0 = coverSrc r \/ coverSrc r0 = Some [] \/
                coverSrc r0 = Some default_cover).
  { destruct (provider_chain_result _ _ _ _ _ _ _ _ _ Hch) as [[_ ->]|[_ ->]].
    - destruct (coverSrc_with_field r); auto.
    - auto. }
  assert (Hkeep : forall P Q : Prop,
    fs s1 = fs s ->
    (false = false -> false = true -> P) /\ (fs s1 <> fs s -> Q) /\
    (coverSrc r0 = coverSrc r \/ coverSrc r0 = Some [] \/
     coverSrc r0 = Some default_cover \/
     coverSrc r0
     = Some (slash :: output_path_of slugify genre (artist r) (album r)))).
  { intros P Q Hfs'. split; [done|]. split; [done|].
    destruct Hr0 as [?|[?|?]]; auto. }
  destruct (truthy url); [|injection H as <- <-; by apply Hkeep].
  destruct (download_and_resize_image _ _ _ _) as [ok s2|] eqn:Hd; [|done].
  apply download_and_resize_image_inv in Hd.
  destruct Hd as [(-> & -> & _)|(-> & -> & _)]; injection H as <- <-.
  - split; [done|]. split; [|by do 3 right].
    intros _. split; [done|]. split.
    + simpl. apply elem_of_union. left. apply elem_of_union. right.
      by apply elem_of_singleton.
    + rewrite <- Hfs in Hc. unfold cached in Hc.
      apply bool_decide_eq_false in Hc. by rewrite <- Hfs.
  - by apply Hkeep.
Qed.


(** *** Runs *)

Lemma authenticate_spotify_returns st body s :
  spotify_token_endpoint w (spotify_credentials w) = Response st body ->
  authenticate_spotify w s
  = Ok (if st =? 200 then body else None) (add_log s [EvToken]).
Proof.
  unfold authenticate_spotify, bind. rewrite emit_eq. intros ->. simpl.
  by destruct (st =? 200).
Qed.

(** C5 (as amended).  A record whose non-empty [coverSrc] names an existing
    file is left as it is, and a record whose output file exists gets that
    path, with a slash before it, as [coverSrc]: neither sends a request or
    touches the disk.  So a run over a catalog of such records sends the
    Spotify token request and nothing else, and so does a second run over
    the catalog it wrote, which it leaves unchanged. *)
Theorem settled_catalog_is_stable genre data s st body :
  spotify_token_endpoint w (spotify_credentials w) = Response st body ->
  Forall (fun r => settled slugify (fs s) genre r = true) data ->
  (forall tok r, valid_cover (fs s) r = true ->
     process_record tok genre r s = Ok r s) /\
  (forall tok r, valid_cover (fs s) r = false ->
     cached slugify (fs s) genre r = true ->
     process_record tok genre r s
     = Ok (set_coverSrc r
             (slash :: output_path_of slugify genre (artist r) (album r))) s) /\
  process_json genre data s
  = Ok (List.map (settle slugify (fs s) genre) data) (add_log s [EvToken]) /\
  process_json genre (List.map (settle slugify (fs s) genre) data)
    (add_log s [EvToken])
  = Ok (List.map (settle slugify (fs s) genre) data)
      (add_log s [EvToken; EvToken]).
Proof.
  intros Htok Hdata.
  split; [intros; by apply process_record_valid|].
  split; [intros; by apply process_record_cached|].
  assert (Hrun : forall data0 s0, fs s0 = fs s ->
    Forall (fun r => settled slugify (fs s) genre r = true) data0 ->
    process_json genre data0 s0
    = Ok (List.map (settle slugify (fs s) genre) data0) (add_log s0 [EvToken])).
  { intros data0 s0 Hfs Hall. unfold process_json, bind.
    rewrite (authenticate_spotify_returns _ _ _ Htok).
    rewrite process_records_settled; simpl; rewrite Hfs; done. }
  split; [by apply Hrun|].
  assert (Hagain :
    Forall (fun r => settled slugify (fs s) genre r = true)
      (List.map (settle slugify (fs s) genre) data) /\
    List.map (settle slugify (fs s) genre)
      (List.map (settle slugify (fs s) genre) data)
    = List.map (settle slugify (fs s) genre) data).
  { clear Hrun. induction Hdata as [|r data Hr Hdata [IH1 IH2]]; simpl; [done|].
    destruct (settle_settled (fs s) genre r Hr) as [Hs1 Hs2].
    split; [by constructor|]. by rewrite Hs2, IH2. }
  destruct Hagain as [Hall Hidem].
  rewrite (Hrun _ (add_log s [EvToken]) eq_refl Hall), Hidem.
  by rewrite add_log_app.
Qed.


(** C9 (as amended).  No provider is switched off by looking at the
    environment.  Spotify is left out of the chain when the token request
    gives no token, as when the service turns down the missing credentials;
    Last.fm and Discogs are asked with the key or token there is, also
    with none, and a refusal (an answer of Last.fm other than 200, an
    exception in the Discogs client) counts as nothing found.  None of
    these stops the run. *)
Theorem missing_credentials_are_not_checked :
  (forall st body s,
     spotify_token_endpoint w (spotify_credentials w) = Response st body ->
     st <> 200 \/ truthy body = false ->
     exists tok,
       authenticate_spotify w s = Ok tok (add_log s [EvToken]) /\
       truthy tok = false) /\
  (forall tok a al y s,
     truthy tok = false -> query_provider tok a al y Spotify s = Ok None s) /\
  (forall a al s st body,
     lastfm_getinfo w (LASTFM_API_KEY w) a al = Response st body -> st <> 200 ->
     fetch_cover_lastfm a al s = Ok None (add_log s [EvSearch LastFm a al])) /\
  (forall a al s,
     discogs_search w (DISCOGS_API_TOKEN w) al a = DiscogsError ->
     fetch_cover_discogs a al s = Ok None (add_log s [EvSearch Discogs a al])).
Proof.
  split; [|split; [|split]].
  - intros st body s Htok Hno.
    rewrite (authenticate_spotify_returns _ _ _ Htok). eexists. split; [done|].
    destruct (st =? 200) eqn:Hst; [|done].
    apply Z.eqb_eq in Hst. by destruct Hno.
  - intros tok a al y s Ht. simpl. by rewrite Ht.
  - intros a al s st body Hl Hst. unfold fetch_cover_lastfm, bind.
    rewrite emit_eq, Hl. simpl. apply Z.eqb_neq in Hst. by rewrite Hst.
  - intros a al s Hd. unfold fetch_cover_discogs, bind.
    by rewrite emit_eq, Hd.
Qed.

(** C2 (where the code departs from it).  The artist names are compared
    as they come: a candidate whose artist name scores under 90 against
    the requested one is rejected, also when the verification on the names
    stripped of their diacritics accepts it. *)
Theorem artist_names_compared_raw a al y c :
  token_sort_ratio a (sourceArtist c) < 90 ->
  verify_normalized a al y c = true ->
  verify token_sort_ratio a al y c = false /\
  verify token_sort_ratio a al y c <> verify_normalized a al y c.
Proof.
  intros Hlt Hn.
  assert (Hv : verify token_sort_ratio a al y c = false).
  { unfold verify, candidate_matches, fuzzy_match.
    destruct (90 <=? _) eqn:E; [apply Z.leb_le in E; lia|done]. }
  split; [done|]. by rewrite Hv, Hn.
Qed.

End Facts.


(** ** The theorems at work, and where the wording does not hold *)


(** C1, as worded, fails: with Spotify without a token and Deezer knowing
    nothing, the chain takes the image Last.fm names for the request; no
    candidate was ever put to the verification. *)
Lemma lastfm_cover_is_not_verified :
  ~ every_found_is_verified sample_ratio lastfm_world None pink_floyd empty_disk.
Proof.
  intros H.
  destruct (H (Some wall_cover_url) pink_floyd
              (add_log empty_disk
                 (six_titles Deezer (lit "Pink Floyd") (lit "The Wall")
                    ++ [EvSearch LastFm (lit "Pink Floyd") (lit "The Wall")])))
    as (p & c & (variant & _ & Ho) & _); [by vm_compute|done|].
  destruct p; simpl in Ho; try done.
  - by destruct Ho as (? & ? & ? & ? & _).
  - by destruct Ho as (? & ? & ? & _).
Qed.

Lemma resolved_cover_sources_witness :
  exists p c,
    offered spotify_world p (Some (lit "token")) (lit "Pink Floyd") (lit "The Wall") c /\
    passes_verification sample_ratio (lit "Pink Floyd") (lit "The Wall")
      (Some (lit "1979")) c /\
    imageUrl c = Some wall_cover_url.
Proof.
  destruct (resolved_cover_sources sample_ratio spotify_world
              (Some (lit "token")) (lit "Pink Floyd") (lit "The Wall")
              (Some (lit "1979")) pink_floyd empty_disk
              (Some wall_cover_url) pink_floyd
              (add_log empty_disk
                 [EvSearch Spotify (lit "Pink Floyd") (lit "The Wall")]))
    as [H|[H|[H|H]]]; [by vm_compute|done|exact H| | |].
  - destruct H as (? & H & _). by vm_compute in H.
  - destruct H as (? & ? & ? & ? & H & _). by vm_compute in H.
  - destruct H as (? & ? & ? & H & _). by vm_compute in H.
Defined.

(** C3, as worded, fails: Last.fm, finding nothing, was asked once, for
    the album title. *)
Lemma lastfm_searches_one_title :
  ~ every_provider_tries_variants sample_ratio silent_world None
      (lit "Pink Floyd") (lit "The Wall") (Some (lit "1979")) LastFm empty_disk.
Proof.
  intros H.
  destruct (H (add_log empty_disk
                 [EvSearch LastFm (lit "Pink Floyd") (lit "The Wall")]))
    as [heads Heq]; [by vm_compute|].
  apply (f_equal log) in Heq. vm_compute in Heq. discriminate Heq.
Qed.

Lemma titles_searched_witness :
  exists n heads,
    add_log empty_disk (six_titles Deezer (lit "Pink Floyd") (lit "The Wall"))
    = add_log empty_disk
        (List.map (EvSearch Deezer (lit "Pink Floyd"))
           (take n (titles_tried Deezer (lit "The Wall")))
           ++ List.map EvHead heads) /\
    (0 < n)%nat /\
    searched_until_hit sample_ratio spotify_world Deezer None
      (lit "Pink Floyd") (lit "The Wall") (Some (lit "1979"))
      (titles_tried Deezer (lit "The Wall")) None n /\
    heads = [].
Proof.
  apply (titles_searched sample_ratio spotify_world None
           (lit "Pink Floyd") (lit "The Wall") (Some (lit "1979")) Deezer
           empty_disk None);
    [by vm_compute|discriminate].
Defined.

(** The chain in the three sample worlds. *)
Example chain_stops_at_spotify :
  observed (provider_chain sample_ratio spotify_world (Some (lit "token"))
              (lit "Pink Floyd") (lit "The Wall") (Some (lit "1979"))
              pink_floyd empty_disk)
  = (inl (Some wall_cover_url, pink_floyd),
     [EvSearch Spotify (lit "Pink Floyd") (lit "The Wall")]).
Proof. by vm_compute. Qed.

Example chain_runs_to_the_end :
  observed (provider_chain sample_ratio silent_world None
              (lit "Pink Floyd") (lit "The Wall") (Some (lit "1979"))
              pink_floyd empty_disk)
  = (inl (None, set_coverSrc pink_floyd (lit "/default-cover.jpg")),
     six_titles Deezer (lit "Pink Floyd") (lit "The Wall")
       ++ [EvSearch LastFm (lit "Pink Floyd") (lit "The Wall");
           EvSearch Discogs (lit "Pink Floyd") (lit "The Wall");
           EvSearch MusicBrainz (lit "Pink Floyd") (lit "The Wall")]).
Proof. by vm_compute. Qed.

(** The failing input of C4: Deezer cannot be reached, and Last.fm has
    the cover.  The chain of the program ends in the exception of the
    transport, after its one request to Deezer. *)
Lemma chain_follows_priority_witness :
  provider_chain sample_ratio deezer_down_world None
    (lit "Pink Floyd") (lit "The Wall") (Some (lit "1979")) pink_floyd empty_disk
  = Raise RequestException
      (add_log empty_disk [EvSearch Deezer (lit "Pink Floyd") (lit "The Wall")]).
Proof.
  destruct (chain_follows_priority sample_ratio deezer_down_world None
              (lit "Pink Floyd") (lit "The Wall") (Some (lit "1979"))
              pink_floyd empty_disk)
    as (_ & _ & _ & _ & Hraise & _).
  apply Hraise.
  exists [Spotify], Deezer, [LastFm; Discogs; MusicBrainz], empty_disk.
  split; [reflexivity|]. split.
  - exists None, empty_disk. by repeat split.
  - by vm_compute.
Defined.

(** ... while the chain as the specification words it passes Deezer over
    and comes back with the image Last.fm names: the two differ. *)
Example unreachable_deezer_is_not_skipped :
  observed (resolve_skipping
              (query_provider sample_ratio deezer_down_world None
                 (lit "Pink Floyd") (lit "The Wall") (Some (lit "1979")))
              priority empty_disk)
  = (inl (Some wall_cover_url),
     [EvSearch Deezer (lit "Pink Floyd") (lit "The Wall");
      EvSearch LastFm (lit "Pink Floyd") (lit "The Wall")]) /\
  ~ failed_provider_is_skipped sample_ratio deezer_down_world None pink_floyd
      empty_disk.
Proof.
  split; [by vm_compute|].
  unfold failed_provider_is_skipped. intros H. vm_compute in H. discriminate H.
Qed.

(** C5, as worded, fails: a record left with the placeholder is looked up
    again by the next run. *)
Lemma placeholder_is_looked_up_again :
  ~ second_run_is_idle sample_ratio sample_slugify silent_world (lit "rock")
      [pink_floyd] empty_disk.
Proof.
  intros H.
  destruct (H [set_coverSrc pink_floyd (lit "/default-cover.jpg")]
              (add_log empty_disk
                 (EvToken :: six_titles Deezer (lit "Pink Floyd") (lit "The Wall")
                    ++ [EvSearch LastFm (lit "Pink Floyd") (lit "The Wall");
                        EvSearch Discogs (lit "Pink Floyd") (lit "The Wall");
                        EvSearch MusicBrainz (lit "Pink Floyd") (lit "The Wall")])))
    as (s2 & Hrun & Hidle); [by vm_compute|].
  vm_compute in Hrun. injection Hrun as <-.
  vm_compute in Hidle.
  apply Forall_cons in Hidle as [_ Hidle].
  apply Forall_cons in Hidle as [Hd _]. discriminate Hd.
Qed.

Lemma settled_catalog_is_stable_witness :
  process_json sample_ratio sample_slugify silent_world (lit "rock")
    [pink_floyd] disk_with_wall
  = Ok (List.map (settle sample_slugify (fs disk_with_wall) (lit "rock"))
          [pink_floyd])
       (add_log disk_with_wall [EvToken]) /\
  process_json sample_ratio sample_slugify silent_world (lit "rock")
    (List.map (settle sample_slugify (fs disk_with_wall) (lit "rock"))
       [pink_floyd])
    (add_log disk_with_wall [EvToken])
  = Ok (List.map (settle sample_slugify (fs disk_with_wall) (lit "rock"))
          [pink_floyd])
       (add_log disk_with_wall [EvToken; EvToken]).
Proof.
  refine (proj2 (proj2 (settled_catalog_is_stable sample_ratio sample_slugify
            silent_world (lit "rock") [pink_floyd] disk_with_wall 400 None _ _)));
    [reflexivity|].
  constructor; [by vm_compute|constructor].
Defined.

Example cached_cover_is_taken :
  List.map (settle sample_slugify (fs disk_with_wall) (lit "rock")) [pink_floyd]
  = [set_coverSrc pink_floyd (lit "/bandcover/rock/pink-floyd-the-wall.jpg")].
Proof. by vm_compute. Qed.

Example lastfm_is_asked_once :
  observed (fetch_cover_lastfm silent_world (lit "Pink Floyd") (lit "The Wall")
              empty_disk)
  = (inl None, [EvSearch LastFm (lit "Pink Floyd") (lit "The Wall")]).
Proof. by vm_compute. Qed.

Lemma exhausted_gets_placeholder_witness :
  exists s',
    process_record sample_ratio sample_slugify silent_world None (lit "rock")
      pink_floyd empty_disk
    = Ok (set_coverSrc pink_floyd default_cover) s' /\
    coverSrc (set_coverSrc pink_floyd default_cover)
    = Some (lit "/default-cover.jpg") /\
    fs s' = fs empty_disk /\
    forall e, e ∈ log s' ->
      e ∈ log empty_disk \/ is_search e = true \/ exists u, e = EvHead u.
Proof.
  refine (proj1 (exhausted_gets_placeholder sample_ratio sample_slugify
            silent_world None (lit "rock") pink_floyd empty_disk _ _) _);
    [by vm_compute|by vm_compute|].
  intros p s0. destruct p; eexists _, _; split; reflexivity.
Defined.

(** C6, as worded, fails: no provider has a verified match for the record
    (Spotify is not asked, Deezer knows nothing), and yet the record does
    not get the placeholder: Last.fm names an image, which is downloaded. *)
Lemma unverified_cover_is_no_exhaustion :
  ~ exhaustion_gives_placeholder sample_ratio sample_slugify lastfm_world None
      (lit "rock") pink_floyd empty_disk.
Proof.
  intros H.
  destruct H as (r' & s' & Hrun & Hsrc); [by vm_compute|by vm_compute| |].
  - intros p c (variant & _ & Ho). destruct p; simpl in Ho; try done.
    + by destruct Ho as (? & ? & ? & ? & _).
    + by destruct Ho as (? & ? & ? & _).
  - vm_compute in Hrun. injection Hrun as <- _.
    vm_compute in Hsrc. discriminate Hsrc.
Qed.

(** The scenario of the specification: one record, nobody knows it. *)
Example pink_floyd_gets_placeholder :
  observed (process_json sample_ratio sample_slugify silent_world (lit "rock")
              [pink_floyd] empty_disk)
  = (inl [set_coverSrc pink_floyd (lit "/default-cover.jpg")],
     EvToken :: six_titles Deezer (lit "Pink Floyd") (lit "The Wall")
       ++ [EvSearch LastFm (lit "Pink Floyd") (lit "The Wall");
           EvSearch Discogs (lit "Pink Floyd") (lit "The Wall");
           EvSearch MusicBrainz (lit "Pink Floyd") (lit "The Wall")]).
Proof. by vm_compute. Qed.

Lemma year_is_checked_witness :
  exists c,
    offered spotify_world Spotify (Some (lit "token"))
      (lit "Pink Floyd") (lit "The Wall") c /\
    imageUrl c = Some wall_cover_url /\
    release_year_of (releaseDate c) = lit "1979".
Proof.
  refine (proj1 (year_is_checked sample_ratio spotify_world
            (Some (lit "token")) (lit "Pink Floyd") (lit "The Wall")
            (lit "1979") Spotify empty_disk wall_cover_url
            (add_log empty_disk
               [EvSearch Spotify (lit "Pink Floyd") (lit "The Wall")]) _ _));
    [by left|by vm_compute].
Defined.

(** The same album asked for with another year: Spotify's candidate is
    turned down, although both names are equal to the requested ones. *)
Example other_year_is_rejected :
  observed (fetch_cover_spotify sample_ratio spotify_world
              (lit "Pink Floyd") (lit "The Wall") (lit "token")
              (Some (lit "1980")) empty_disk)
  = (inl None, six_titles Spotify (lit "Pink Floyd") (lit "The Wall")) /\
  observed (fetch_cover_spotify sample_ratio spotify_world
              (lit "Pink Floyd") (lit "The Wall") (lit "token")
              None empty_disk)
  = (inl (Some wall_cover_url),
     [EvSearch Spotify (lit "Pink Floyd") (lit "The Wall")]).
Proof. split; by vm_compute. Qed.

Lemma imaging_failure_aborts_witness :
  process_records sample_ratio sample_slugify broken_image_world None
    (lit "rock") [pink_floyd; animals] empty_disk
  = Raise ImagingException
      (add_log
         (add_log empty_disk
            (six_titles Deezer (lit "Pink Floyd") (lit "The Wall")
               ++ [EvSearch LastFm (lit "Pink Floyd") (lit "The Wall")]))
         [EvDownload wall_cover_url]).
Proof.
  refine (proj2 (imaging_failure_aborts sample_ratio sample_slugify
            broken_image_world None (lit "rock") pink_floyd [animals]
            empty_disk wall_cover_url (set_coverSrc pink_floyd [])
            (add_log empty_disk
               (six_titles Deezer (lit "Pink Floyd") (lit "The Wall")
                  ++ [EvSearch LastFm (lit "Pink Floyd") (lit "The Wall")]))
            (lit "<html>") _ _ _ _ _ _));
    by vm_compute.
Defined.

(** A run over two records where the first download is no image: the run
    ends in the exception, the second record is never looked at. *)
Example run_aborted_by_bad_image :
  observed (process_json sample_ratio sample_slugify broken_image_world
              (lit "rock") [pink_floyd; animals] empty_disk)
  = (inr ImagingException,
     EvToken :: six_titles Deezer (lit "Pink Floyd") (lit "The Wall")
       ++ [EvSearch LastFm (lit "Pink Floyd") (lit "The Wall");
           EvDownload wall_cover_url]).
Proof. by vm_compute. Qed.

(** C9, as worded, fails: without [LASTFM_API_KEY] and without
    [DISCOGS_API_TOKEN], Last.fm and Discogs are asked all the same. *)
Lemma lastfm_is_asked_without_key :
  ~ absent_credential_skips sample_ratio silent_world None pink_floyd empty_disk.
Proof.
  intros H.
  destruct (H (EvSearch LastFm (lit "Pink Floyd") (lit "The Wall")))
    as (_ & Hl & _).
  - apply list_elem_of_lookup. exists 6%nat. by vm_compute.
  - apply not_elem_of_nil.
  - by apply Hl.
Qed.

Lemma missing_credentials_are_not_checked_witness :
  fetch_cover_lastfm silent_world (lit "Pink Floyd") (lit "The Wall") empty_disk
  = Ok None
      (add_log empty_disk [EvSearch LastFm (lit "Pink Floyd") (lit "The Wall")]).
Proof.
  refine (proj1 (proj2 (proj2
            (missing_credentials_are_not_checked sample_ratio silent_world)))
            (lit "Pink Floyd") (lit "The Wall") empty_disk 403 None _ _);
    [reflexivity|discriminate].
Defined.

Lemma coverSrc_is_rooted_output_path_witness :
  process_record sample_ratio sample_slugify lastfm_world None (lit "rock")
    pink_floyd empty_disk
  = Ok (set_coverSrc (with_coverSrc_field pink_floyd)
          (slash :: output_path_of sample_slugify (lit "rock")
                      (artist pink_floyd) (album pink_floyd)))
       (saved
          (add_log empty_disk
             (six_titles Deezer (lit "Pink Floyd") (lit "The Wall")
                ++ [EvSearch LastFm (lit "Pink Floyd") (lit "The Wall")]))
          wall_cover_url
          (output_path_of sample_slugify (lit "rock")
             (artist pink_floyd) (album pink_floyd))) /\
  output_path_of sample_slugify (lit "rock") (artist pink_floyd) (album pink_floyd)
    ∈ fs (saved
            (add_log empty_disk
               (six_titles Deezer (lit "Pink Floyd") (lit "The Wall")
                  ++ [EvSearch LastFm (lit "Pink Floyd") (lit "The Wall")]))
            wall_cover_url
            (output_path_of sample_slugify (lit "rock")
               (artist pink_floyd) (album pink_floyd))) /\
  lit "/bandcover/rock/pink-floyd-the-wall.jpg"
  <> lit "bandcover/rock/pink-floyd-the-wall.jpg" /\
  output_path_of sample_slugify (lit "rock") (lit "Pink Floyd") (lit "The Wall")
  = lit "bandcover/" ++ lit "rock" ++ lit "/"
      ++ sample_slugify (lit "Pink Floyd" ++ lit "_" ++ lit "The Wall")
      ++ lit ".jpg".
Proof.
  destruct (coverSrc_is_rooted_output_path sample_ratio sample_slugify
              lastfm_world None (lit "rock") pink_floyd empty_disk)
    as (Hdl & _ & Hne & Hshape).
  destruct (Hdl wall_cover_url (with_coverSrc_field pink_floyd)
              (add_log empty_disk
                 (six_titles Deezer (lit "Pink Floyd") (lit "The Wall")
                    ++ [EvSearch LastFm (lit "Pink Floyd") (lit "The Wall")]))
              (lit "JFIF"))
    as (_ & Hrun & _ & Hin & _);
    [by vm_compute|by vm_compute|by vm_compute|reflexivity|reflexivity
    |reflexivity|].
  split; [exact Hrun|]. split; [exact Hin|]. split; [exact Hne|].
  apply Hshape; [discriminate| |reflexivity].
  intros Hin'. apply list_elem_of_In in Hin'. vm_compute in Hin'.
  intuition discriminate.
Defined.

(** A download that goes through: the file is at the output path, the
    record carries the path with the slash. *)
Example downloaded_cover :
  process_record sample_ratio sample_slugify lastfm_world None (lit "rock")
    pink_floyd empty_disk
  = Ok (set_coverSrc pink_floyd (lit "/bandcover/rock/pink-floyd-the-wall.jpg"))
       (saved
          (add_log empty_disk
             (six_titles Deezer (lit "Pink Floyd") (lit "The Wall")
                ++ [EvSearch LastFm (lit "Pink Floyd") (lit "The Wall")]))
          wall_cover_url (lit "bandcover/rock/pink-floyd-the-wall.jpg")).
Proof. by vm_compute. Qed.

Lemma artist_names_compared_raw_witness :
  verify sample_ratio bjork (lit "Homogenic") None
    (candidate_of_deezer homogenic_on_deezer) = false /\
  verify sample_ratio bjork (lit "Homogenic") None
    (candidate_of_deezer homogenic_on_deezer)
  <> verify_normalized sample_ratio sample_NFD sample_category
       bjork (lit "Homogenic") None (candidate_of_deezer homogenic_on_deezer).
Proof.
  apply (artist_names_compared_raw sample_ratio sample_NFD sample_category);
    by vm_compute.
Defined.

(** "Björk" asked for, "Bjork" offered: stripped of the diaeresis the two
    names are the same, as they come they are not, and Deezer's candidate
    is passed over for every title. *)
Example bjork_is_passed_over :
  normalize_artist_name sample_NFD sample_category bjork = lit "Bjork" /\
  observed (fetch_cover_deezer sample_ratio bjork_world bjork (lit "Homogenic")
              None empty_disk)
  = (inl None, six_titles Deezer bjork (lit "Homogenic")).
Proof. split; by vm_compute. Qed.

(** A provider that cannot be reached gives no result at all: the
    exception of the transport ends the chain (Discogs apart, whose
    function catches everything). *)
Example unreachable_provider_ends_the_chain :
  observed (provider_chain sample_ratio deezer_down_world None
              (lit "Pink Floyd") (lit "The Wall") (Some (lit "1979"))
              pink_floyd empty_disk)
  = (inr RequestException,
     [EvSearch Deezer (lit "Pink Floyd") (lit "The Wall")]).
Proof. by vm_compute. Qed.

(** The six titles Spotify and Deezer go through. *)
Example titles_of_the_wall :
  title_variants (lit "The Wall")
  = [lit "The Wall"; lit "The Wall Deluxe"; lit "The Wall Remastered";
     lit "The Wall Anniversary"; lit "The Wall Special Edition";
     lit "The Wall Expanded Edition"] /\
  titles_tried Spotify (lit "The Wall") = title_variants (lit "The Wall") /\
  titles_tried Deezer (lit "The Wall") = title_variants (lit "The Wall") /\
  titles_tried LastFm (lit "The Wall") = [lit "The Wall"].
Proof. repeat split; by vm_compute. Qed.

(** The year of a release date. *)
Example year_of_a_date :
  release_year_of (Some (lit "1979-11-30")) = lit "1979" /\
  release_year_of (Some (lit "1979")) = lit "1979" /\
  release_year_of None = [].
Proof. repeat split; by vm_compute. Qed.

(** ** Beyond one record: what a whole run keeps, sends and writes *)

(** *** Computations that only ask providers *)

Lemma only_asks_ret {A} (a : A) : only_asks (ret a).
Proof.
  exists (inl a), []. split; [constructor|].
  intros s. unfold outcome_at. by rewrite add_log_nil.
Qed.

Lemma only_asks_raise {A} (e : exn) : only_asks (raise e : M A).
Proof.
  exists (inr e), []. split; [constructor|].
  intros s. unfold outcome_at. by rewrite add_log_nil.
Qed.

Lemma only_asks_emit (e : event) : is_provider_event e -> only_asks (emit e).
Proof.
  intros He. exists (inl tt), [e]. split; [by constructor|].
  intros s. apply emit_eq.
Qed.

Lemma only_asks_requests {B} (r : http B) : only_asks (requests r).
Proof. destruct r; [apply only_asks_raise|apply only_asks_ret]. Qed.

Lemma only_asks_bind {A B} (m : M A) (k : A -> M B) :
  only_asks m -> (forall a, only_asks (k a)) -> only_asks (bind m k).
Proof.
  intros (res & evs & Hevs & Hm) Hk. destruct res as [a|e].
  - destruct (Hk a) as (res' & evs' & Hevs' & Hka).
    exists res', (evs ++ evs'). split; [by apply Forall_app|].
    intros s. unfold bind. rewrite Hm. simpl. rewrite Hka.
    unfold outcome_at. by rewrite add_log_app.
  - exists (inr e), evs. split; [done|].
    intros s. unfold bind. by rewrite Hm.
Qed.

Lemma only_asks_if {A} (b : bool) (m1 m2 : M A) :
  only_asks m1 -> only_asks m2 -> only_asks (if b then m1 else m2).
Proof. by destruct b. Qed.

Section Invariants.

Variable token_sort_ratio : str -> str -> Z.
Variable slugify : str -> str.
Variable unicodedata_normalize_NFD : str -> str.
Variable unicodedata_category : N -> str.
Variable w : world.

Lemma only_asks_spotify_items a al y items :
  only_asks (spotify_items token_sort_ratio a al y items).
Proof.
  induction items as [|item items IH]; simpl; [apply only_asks_ret|].
  destruct (sp_artists item); [apply only_asks_raise|].
  apply only_asks_if; [|done].
  destruct (sp_images item); [apply only_asks_raise|apply only_asks_ret].
Qed.

Lemma only_asks_spotify_variants a al tok y vs :
  only_asks (spotify_variants token_sort_ratio w a al tok y vs).
Proof.
  induction vs as [|v vs IH]; simpl; [apply only_asks_ret|].
  apply only_asks_bind; [by apply only_asks_emit|intros _].
  apply only_asks_bind; [apply only_asks_requests|intros response].
  apply only_asks_if; [|done].
  apply only_asks_bind; [apply only_asks_spotify_items|intros [url|]];
    [apply only_asks_ret|done].
Qed.

Lemma only_asks_deezer_variants a al y vs :
  only_asks (deezer_variants token_sort_ratio w a al y vs).
Proof.
  induction vs as [|v vs IH]; simpl; [apply only_asks_ret|].
  apply only_asks_bind; [by apply only_asks_emit|intros _].
  apply only_asks_bind; [apply only_asks_requests|intros response].
  apply only_asks_if; [|done].
  destruct (snd response); [done|].
  apply only_asks_if; [apply only_asks_ret|done].
Qed.

Lemma only_asks_lastfm a al : only_asks (fetch_cover_lastfm w a al).
Proof.
  unfold fetch_cover_lastfm.
  apply only_asks_bind; [by apply only_asks_emit|intros _].
  apply only_asks_bind; [apply only_asks_requests|intros response].
  apply only_asks_if; [|apply only_asks_ret].
  destruct (snd response); apply only_asks_ret.
Qed.

Lemma only_asks_discogs a al : only_asks (fetch_cover_discogs w a al).
Proof.
  unfold fetch_cover_discogs.
  apply only_asks_bind; [by apply only_asks_emit|intros _].
  destruct (discogs_search _ _ _ _) as [|count releases]; [apply only_asks_ret|].
  apply only_asks_if; [|apply only_asks_ret].
  destruct releases as [|[|uri uris] releases]; apply only_asks_ret.
Qed.

Lemma only_asks_musicbrainz a al : only_asks (fetch_cover_musicbrainz w a al).
Proof.
  unfold fetch_cover_musicbrainz.
  apply only_asks_bind; [by apply only_asks_emit|intros _].
  apply only_asks_bind; [apply only_asks_requests|intros response].
  apply only_asks_if; [|apply only_asks_ret].
  destruct (snd response) as [[|release_id ids]|]; try apply only_asks_ret.
  apply only_asks_bind; [by apply only_asks_emit|intros _].
  apply only_asks_bind; [apply only_asks_requests|intros head_response].
  apply only_asks_if; apply only_asks_ret.
Qed.

Lemma only_asks_query_provider tok a al y p :
  only_asks (query_provider token_sort_ratio w tok a al y p).
Proof.
  destruct p; simpl.
  - apply only_asks_if; [apply only_asks_spotify_variants|apply only_asks_ret].
  - apply only_asks_deezer_variants.
  - apply only_asks_lastfm.
  - apply only_asks_discogs.
  - apply only_asks_musicbrainz.
Qed.

Lemma only_asks_provider_chain tok a al y rec :
  only_asks (provider_chain token_sort_ratio w tok a al y rec).
Proof.
  unfold provider_chain.
  apply only_asks_bind;
    [apply only_asks_if; [apply only_asks_spotify_variants|apply only_asks_ret]|].
  intros u1.
  apply only_asks_bind;
    [apply only_asks_if; [apply only_asks_deezer_variants|apply only_asks_ret]|].
  intros u2.
  apply only_asks_bind;
    [apply only_asks_if; [apply only_asks_lastfm|apply only_asks_ret]|].
  intros u3.
  apply only_asks_bind;
    [apply only_asks_if; [apply only_asks_discogs|apply only_asks_ret]|].
  intros u4.
  apply only_asks_if; [|apply only_asks_ret].
  apply only_asks_bind; [apply only_asks_musicbrainz|intros u5].
  apply only_asks_if; apply only_asks_ret.
Qed.

(** X1.  What the fallback over the five sources returns (or raises) and
    the requests it sends are the same from whatever state it starts: they
    depend neither on the files on the disk nor on the requests sent
    before.  All its requests go to providers, and it leaves the disk as it
    is. *)
Theorem chain_only_asks tok a al y rec :
  exists res evs,
    Forall is_provider_event evs /\
    forall s,
      provider_chain token_sort_ratio w tok a al y rec s = outcome_at res evs s /\
      fs (state_of (provider_chain token_sort_ratio w tok a al y rec s)) = fs s.
Proof.
  destruct (only_asks_provider_chain tok a al y rec) as (res & evs & Hevs & H).
  exists res, evs. split; [done|].
  intros s. split; [done|].
  rewrite H. by destruct res.
Qed.

(** *** What one record adds to the log and to the disk *)

Lemma process_record_effect tok genre r s :
  exists evs, Forall is_provider_event evs /\
    (state_of (process_record token_sort_ratio slugify w tok genre r s)
       = add_log s evs \/
     exists url, url <> [] /\
       (state_of (process_record token_sort_ratio slugify w tok genre r s)
          = add_log s (evs ++ [EvDownload url]) \/
        state_of (process_record token_sort_ratio slugify w tok genre r s)
          = saved (add_log s evs) url
              (output_path_of slugify genre (artist r) (album r)))).
Proof.
  destruct (valid_cover (fs s) r) eqn:Hv.
  { exists []. split; [constructor|left].
    rewrite process_record_valid by done. by rewrite add_log_nil. }
  destruct (cached slugify (fs s) genre r) eqn:Hc.
  { exists []. split; [constructor|left].
    rewrite process_record_cached by done. by rewrite add_log_nil. }
  rewrite process_record_lookup by done.
  destruct (only_asks_provider_chain tok (artist r) (album r) (year r)
              (with_coverSrc_field r)) as (res & evs & Hevs & H).
  exists evs. split; [done|]. rewrite H.
  destruct res as [[[[|c url]|] r']|e]; simpl; try by left.
  right. exists (c :: url). split; [done|].
  unfold download_and_resize_image, bind. rewrite emit_eq.
  destruct (image_get w (c :: url)) as [|st content]; simpl.
  { left. by rewrite add_log_app. }
  destruct (st =? 200); [|left; by rewrite add_log_app].
  destruct (imaging_completes _ _ _); simpl.
  - right. reflexivity.
  - left. by rewrite add_log_app.
Qed.

Lemma provider_event_is_record_event e :
  is_provider_event e -> is_record_event e /\ is_download e = false.
Proof. by destruct e. Qed.

Lemma process_record_summary tok genre r s :
  exists evs,
    log (state_of (process_record token_sort_ratio slugify w tok genre r s))
      = log s ++ evs /\
    Forall is_record_event evs /\
    (length (List.filter is_download evs) <= 1)%nat /\
    fs s ⊆ fs (state_of (process_record token_sort_ratio slugify w tok genre r s)) /\
    fs (state_of (process_record token_sort_ratio slugify w tok genre r s))
      ⊆ fs s ∪ output_files slugify genre [r].
Proof.
  destruct (process_record_effect tok genre r s) as (evs & Hevs & H).
  assert (Hrec : Forall is_record_event evs).
  { eapply Forall_impl; [exact Hevs|]. intros e He.
    by apply provider_event_is_record_event. }
  assert (Hnone : List.filter is_download evs = []).
  { clear H Hrec. induction Hevs as [|e evs He _ IH]; [done|].
    simpl. apply provider_event_is_record_event in He as [_ ->]. done. }
  destruct H as [->|(url & Hurl & [->| ->])].
  - exists evs. simpl. rewrite Hnone. repeat split; [done|simpl; lia|done|].
    apply union_subseteq_l.
  - exists (evs ++ [EvDownload url]). simpl.
    rewrite List.filter_app, Hnone. simpl.
    repeat split; [|lia|done|apply union_subseteq_l].
    apply Forall_app. split; [done|]. by constructor.
  - exists (evs ++ [EvDownload url]). simpl.
    rewrite List.filter_app, Hnone, app_assoc. simpl.
    repeat split; [|lia| |].
    + apply Forall_app. split; [done|]. by constructor.
    + rewrite <- (assoc_L (∪)). apply union_subseteq_l.
    + unfold output_files. cbn [flat_map]. rewrite app_nil_r.
      rewrite list_to_set_cons. by rewrite <- (assoc_L (∪)).
Qed.

Lemma process_records_cons tok genre r data s :
  state_of (process_records token_sort_ratio slugify w tok genre (r :: data) s)
  = match process_record token_sort_ratio slugify w tok genre r s with
    | Ok _ s1 =>
        state_of (process_records token_sort_ratio slugify w tok genre data s1)
    | Raise _ s1 => s1
    end.
Proof.
  simpl. unfold bind.
  destruct (process_record _ _ _ _ _ _ _) as [r' s1|e s1]; [|done].
  by destruct (process_records _ _ _ _ _ _ _).
Qed.

Lemma output_files_cons genre r data :
  output_files slugify genre (r :: data)
  = output_files slugify genre [r] ∪ output_files slugify genre data.
Proof.
  unfold output_files. cbn [flat_map]. rewrite app_nil_r.
  by rewrite list_to_set_app_L, !list_to_set_cons.
Qed.

Lemma process_records_summary tok genre data s :
  exists evs,
    log (state_of (process_records token_sort_ratio slugify w tok genre data s))
      = log s ++ evs /\
    Forall is_record_event evs /\
    (length (List.filter is_download evs) <= length data)%nat /\
    fs s ⊆ fs (state_of (process_records token_sort_ratio slugify w tok genre data s)) /\
    fs (state_of (process_records token_sort_ratio slugify w tok genre data s))
      ⊆ fs s ∪ output_files slugify genre data.
Proof.
  revert s. induction data as [|r data IH]; intros s.
  { exists []. simpl. rewrite app_nil_r. repeat split; [constructor|lia|done|].
    apply union_subseteq_l. }
  rewrite process_records_cons, output_files_cons.
  destruct (process_record_summary tok genre r s)
    as (evs1 & Hlog1 & Hev1 & Hdl1 & Hfs1 & Hout1).
  destruct (process_record _ _ _ _ _ _ _) as [r' s1|e s1]; simpl in *.
  - destruct (IH s1) as (evs2 & Hlog2 & Hev2 & Hdl2 & Hfs2 & Hout2).
    exists (evs1 ++ evs2). rewrite Hlog2, Hlog1, List.filter_app, length_app.
    repeat split; [by rewrite app_assoc|by apply Forall_app|lia| |].
    + by transitivity (fs s1).
    + intros x Hx. apply Hout2 in Hx.
      apply elem_of_union in Hx as [Hx|Hx].
      * apply Hout1 in Hx. apply elem_of_union in Hx as [Hx|Hx].
        -- by apply elem_of_union_l.
        -- by apply elem_of_union_r, elem_of_union_l.
      * by apply elem_of_union_r, elem_of_union_r.
  - exists evs1. repeat split; [done|done|lia|done|].
    intros x Hx. apply Hout1 in Hx. apply elem_of_union in Hx as [Hx|Hx].
    + by apply elem_of_union_l.
    + by apply elem_of_union_r, elem_of_union_l.
Qed.

(** X2.  A run sends one token request, and sends it before anything else,
    whatever the catalog and however the run ends; every later request is a
    search, a probe of the Cover Art Archive or a download. *)
Theorem run_starts_with_the_token_request genre data s :
  exists evs,
    log (state_of (process_json token_sort_ratio slugify w genre data s))
      = log s ++ EvToken :: evs /\
    EvToken ∉ evs.
Proof.
  unfold process_json, authenticate_spotify, bind. rewrite emit_eq.
  destruct (spotify_token_endpoint w (spotify_credentials w)) as [|st body]; simpl.
  { exists []. split; [done|apply not_elem_of_nil]. }
  destruct (process_records_summary
              (if st =? 200 then body else None) genre data
              (add_log s [EvToken])) as (evs & Hlog & Hev & _).
  exists evs. split.
  - destruct (st =? 200); simpl in *; rewrite Hlog; by rewrite <- app_assoc.
  - intros Hin. rewrite Forall_forall in Hev. by apply Hev in Hin.
Qed.

(** X3.  A run downloads at most one image per record of the catalog, and
    never asks for a download with an empty URL. *)
Theorem at_most_one_download_per_record genre data s :
  exists evs,
    log (state_of (process_json token_sort_ratio slugify w genre data s))
      = log s ++ evs /\
    (length (List.filter is_download evs) <= length data)%nat /\
    forall url, EvDownload url ∈ evs -> url <> [].
Proof.
  unfold process_json, authenticate_spotify, bind. rewrite emit_eq.
  destruct (spotify_token_endpoint w (spotify_credentials w)) as [|st body]; simpl.
  { exists [EvToken]. split; [done|]. split; [simpl; lia|].
    intros url Hin. apply list_elem_of_singleton in Hin. discriminate. }
  destruct (process_records_summary
              (if st =? 200 then body else None) genre data
              (add_log s [EvToken])) as (evs & Hlog & Hev & Hdl & _).
  exists (EvToken :: evs). split; [|split].
  - destruct (st =? 200); simpl in *; rewrite Hlog; by rewrite <- app_assoc.
  - simpl. lia.
  - intros url [Hin|Hin]%elem_of_cons; [discriminate|].
    rewrite Forall_forall in Hev. by apply Hev in Hin.
Qed.

(** X4.  A run removes no file, and the only paths it adds to the disk are
    the output files of the records of its catalog and the directories
    above them; this holds also for a run that ends in an exception. *)
Theorem run_only_adds_cover_files genre data s :
  fs s ⊆ fs (state_of (process_json token_sort_ratio slugify w genre data s)) /\
  fs (state_of (process_json token_sort_ratio slugify w genre data s))
    ⊆ fs s ∪ output_files slugify genre data.
Proof.
  unfold process_json, authenticate_spotify, bind. rewrite emit_eq.
  destruct (spotify_token_endpoint w (spotify_credentials w)) as [|st body]; simpl.
  { split; [done|apply union_subseteq_l]. }
  destruct (process_records_summary
              (if st =? 200 then body else None) genre data
              (add_log s [EvToken])) as (evs & _ & _ & _ & Hfs & Hout).
  by destruct (st =? 200).
Qed.

(** *** What a run leaves of the records *)

Lemma process_record_fields tok genre r s r' s' :
  process_record token_sort_ratio slugify w tok genre r s = Ok r' s' ->
  artist r' = artist r /\ album r' = album r /\ year r' = year r /\
  is_Some (coverSrc r') /\
  (truthy (coverSrc r) = true -> truthy (coverSrc r') = true).
Proof.
  assert (Hwf : forall r0, r0 = with_coverSrc_field r \/
                  r0 = set_coverSrc (with_coverSrc_field r) default_cover ->
            artist r0 = artist r /\ album r0 = album r /\ year r0 = year r /\
            is_Some (coverSrc r0) /\
            (truthy (coverSrc r) = true -> truthy (coverSrc r0) = true)).
  { intros r0 [-> | ->]; unfold with_coverSrc_field;
      destruct (coverSrc r) as [[|c u]|] eqn:Hsrc; simpl; rewrite ?Hsrc;
      repeat split; eauto. }
  destruct (valid_cover (fs s) r) eqn:Hv.
  { rewrite process_record_valid by done. intros [= <- <-].
    unfold valid_cover in Hv. apply andb_prop in Hv as [Ht _].
    repeat split; [|done].
    destruct (coverSrc r); [eauto|discriminate]. }
  destruct (cached slugify (fs s) genre r) eqn:Hc.
  { rewrite process_record_cached by done. intros [= <- <-].
    simpl. repeat split; eauto. }
  rewrite process_record_lookup by done.
  destruct (provider_chain _ _ _ _ _ _ _ _) as [[url r0] s1|] eqn:Hch; [|done].
  apply provider_chain_result in Hch.
  assert (H0 : r0 = with_coverSrc_field r \/
               r0 = set_coverSrc (with_coverSrc_field r) default_cover)
    by (destruct Hch as [[_ ->]|[_ ->]]; eauto).
  apply Hwf in H0. destruct H0 as (Ha & Hal & Hy & Hs & Ht).
  destruct (truthy url).
  - destruct (download_and_resize_image _ _ _ _) as [[] s2|]; [| |done];
      intros [= <- <-]; simpl; repeat split; eauto.
  - intros [= <- <-]. repeat split; eauto.
Qed.

Lemma process_records_fields tok genre data :
  forall s data' s',
    process_records token_sort_ratio slugify w tok genre data s = Ok data' s' ->
    Forall2 (fun r r' =>
      artist r' = artist r /\ album r' = album r /\ year r' = year r /\
      is_Some (coverSrc r') /\
      (truthy (coverSrc r) = true -> truthy (coverSrc r') = true)) data data'.
Proof.
  induction data as [|r data IH]; intros s data' s'; simpl.
  { intros [= <- <-]. constructor. }
  unfold bind.
  destruct (process_record _ _ _ _ _ _ _) as [r' s1|] eqn:Hr; [|done].
  destruct (process_records _ _ _ _ _ _ _) as [data1 s2|] eqn:Hd; [|done].
  intros [= <- <-]. constructor; [by eapply process_record_fields|by eapply IH].
Qed.

Lemma process_json_records genre data s data' s' :
  process_json token_sort_ratio slugify w genre data s = Ok data' s' ->
  exists tok s1,
    process_records token_sort_ratio slugify w tok genre data s1 = Ok data' s'.
Proof.
  unfold process_json, bind.
  destruct (authenticate_spotify w s) as [tok s1|]; [|done]. eauto.
Qed.

(** X5.  The catalog a run writes back has the records of the catalog it
    loaded, in the same order and as many, each with its artist, album and
    year as they were: the run writes to no field but coverSrc. *)
Theorem run_keeps_the_records genre data s data' s' :
  process_json token_sort_ratio slugify w genre data s = Ok data' s' ->
  length data' = length data /\
  Forall2 (fun r r' =>
    artist r' = artist r /\ album r' = album r /\ year r' = year r) data data'.
Proof.
  intros (tok & s1 & H)%process_json_records.
  apply process_records_fields in H.
  split; [symmetry; by eapply Forall2_length|].
  eapply Forall2_impl; [exact H|]. intros r r' (? & ? & ? & _). done.
Qed.

(** X6.  In the catalog a run writes back every record has a coverSrc, and
    a record that came with a non-empty coverSrc has a non-empty one
    still. *)
Theorem coverSrc_is_never_lost genre data s data' s' :
  process_json token_sort_ratio slugify w genre data s = Ok data' s' ->
  Forall2 (fun r r' =>
    is_Some (coverSrc r') /\
    (truthy (coverSrc r) = true -> truthy (coverSrc r') = true)) data data'.
Proof.
  intros (tok & s1 & H)%process_json_records.
  apply process_records_fields in H.
  eapply Forall2_impl; [exact H|]. intros r r' (_ & _ & _ & ? & ?). done.
Qed.

Lemma process_record_downloaded tok genre r s r' s' :
  process_record token_sort_ratio slugify w tok genre r s = Ok r' s' ->
  fs s' <> fs s ->
  output_path_of slugify genre (artist r) (album r) ∈ fs s' /\
  coverSrc r'
  = Some (slash :: output_path_of slugify genre (artist r) (album r)).
Proof.
  destruct (valid_cover (fs s) r) eqn:Hv.
  { rewrite process_record_valid by done. by intros [= <- <-]. }
  destruct (cached slugify (fs s) genre r) eqn:Hc.
  { rewrite process_record_cached by done. by intros [= <- <-]. }
  rewrite process_record_lookup by done.
  destruct (provider_chain _ _ _ _ _ _ _ _) as [[url r0] s1|] eqn:Hch; [|done].
  apply provider_chain_fs in Hch.
  destruct (truthy url); [|intros [= <- <-]; congruence].
  destruct (download_and_resize_image _ _ _ _) as [ok s2|] eqn:Hdl; [|done].
  apply download_and_resize_image_inv in Hdl
    as [(-> & -> & _)|(-> & -> & _)]; intros [= <- <-]; simpl.
  - intros _. split; [|done].
    apply elem_of_union_l, elem_of_union_r, elem_of_singleton. done.
  - congruence.
Qed.

Lemma set_coverSrc_same r v : coverSrc r = Some v -> set_coverSrc r v = r.
Proof. destruct r. simpl. by intros ->. Qed.

(** X7.  Once a cover has been downloaded for a record, the file is found
    by every later look at a record of the same artist and album, in the
    same run or in a later one, as long as no file is removed: such a record
    is passed over without a request, and the record the download left is
    left as it is. *)
Theorem downloaded_cover_is_found_again tok genre r s r' s' :
  process_record token_sort_ratio slugify w tok genre r s = Ok r' s' ->
  fs s' <> fs s ->
  forall tok2 s2, fs s' ⊆ fs s2 ->
    process_record token_sort_ratio slugify w tok2 genre r' s2 = Ok r' s2 /\
    forall r2, artist r2 = artist r -> album r2 = album r ->
      process_record token_sort_ratio slugify w tok2 genre r2 s2
      = Ok (settle slugify (fs s2) genre r2) s2.
Proof.
  intros Hrun Hfs tok2 s2 Hsub.
  destruct (process_record_downloaded _ _ _ _ _ _ Hrun Hfs) as [Hin Hsrc].
  destruct (process_record_fields _ _ _ _ _ _ Hrun) as (Ha & Hal & _).
  assert (Hsettled : forall r2, artist r2 = artist r -> album r2 = album r ->
            settled slugify (fs s2) genre r2 = true).
  { intros r2 H1 H2. unfold settled, cached. rewrite H1, H2.
    rewrite (bool_decide_eq_true_2 _ (Hsub _ Hin)). apply orb_true_r. }
  split.
  - rewrite process_record_settled by (by apply Hsettled).
    f_equal. unfold settle. destruct (valid_cover (fs s2) r'); [done|].
    apply set_coverSrc_same. by rewrite Ha, Hal.
  - intros r2 H1 H2. apply process_record_settled. by apply Hsettled.
Qed.

(** X9.  When the image host answers the download with a status other than
    200, or cannot be reached, the record keeps the coverSrc it had (the
    empty string if it had none) and the loop goes on with the records
    that follow. *)
Theorem failed_download_is_passed_over tok genre r rest s url r' s1 :
  valid_cover (fs s) r = false ->
  cached slugify (fs s) genre r = false ->
  provider_chain token_sort_ratio w tok (artist r) (album r) (year r)
      (with_coverSrc_field r) s
    = Ok (Some url, r') s1 ->
  truthy (Some url) = true ->
  (image_get w url = ConnectionFailed \/
   exists st content, image_get w url = Response st content /\ st <> 200) ->
  process_records token_sort_ratio slugify w tok genre (r :: rest) s
  = map_outcome (cons (with_coverSrc_field r))
      (process_records token_sort_ratio slugify w tok genre rest
         (add_log s1 [EvDownload url])).
Proof.
  intros Hv Hc Hch Ht Himg. simpl. unfold bind.
  rewrite (download_failure_is_survived _ _ _ _ _ _ _ _ _ _ Hv Hc Hch Ht Himg).
  by destruct (process_records _ _ _ _ _ _ _).
Qed.

(** X10.  When the token endpoint cannot be reached the run ends in the
    exception of the transport before any record is looked at, whatever
    the catalog: also one all of whose covers are on the disk already. *)
Theorem unreachable_token_endpoint_ends_the_run genre data s :
  spotify_token_endpoint w (spotify_credentials w) = ConnectionFailed ->
  process_json token_sort_ratio slugify w genre data s
  = Raise RequestException (add_log s [EvToken]).
Proof.
  intros H. unfold process_json, authenticate_spotify, bind.
  by rewrite emit_eq, H.
Qed.

(** *** The providers, one by one *)

Lemma spotify_items_passed_over a al y before rest s :
  Forall (passed_over token_sort_ratio a al y) before ->
  spotify_items token_sort_ratio a al y (before ++ rest) s
  = spotify_items token_sort_ratio a al y rest s.
Proof.
  induction 1 as [|item before (name & names & Hn & Hm) _ IH]; [done|].
  simpl. by rewrite Hn, Hm.
Qed.

Lemma spotify_items_split a al y items :
  Forall (passed_over token_sort_ratio a al y) items \/
  exists before item after,
    items = before ++ item :: after /\
    Forall (passed_over token_sort_ratio a al y) before /\
    (sp_artists item = [] \/ taken token_sort_ratio a al y item).
Proof.
  induction items as [|item items IH]; [left; constructor|].
  destruct (sp_artists item) as [|name names] eqn:Hn.
  { right. exists [], item, items. repeat split; [constructor|by left]. }
  destruct (candidate_matches token_sort_ratio a al y name (sp_name item)
              (sp_album_type item) (release_year_of (sp_release_date item)))
    eqn:Hm.
  { right. exists [], item, items. repeat split; [constructor|right].
    by exists name, names. }
  assert (Hp : passed_over token_sort_ratio a al y item) by (by exists name, names).
  destruct IH as [IH|(before & item' & after & -> & Hb & Hi)].
  - left. by constructor.
  - right. exists (item :: before), item', after.
    repeat split; [by constructor|done].
Qed.

Lemma spotify_items_taken a al y item after s :
  taken token_sort_ratio a al y item ->
  spotify_items token_sort_ratio a al y (item :: after) s
  = match sp_images item with
    | [] => Raise IndexError s
    | url :: _ => Ok (Some url) s
    end.
Proof.
  intros (name & names & Hn & Hm). simpl. rewrite Hn, Hm.
  by destruct (sp_images item).
Qed.

Lemma spotify_items_none a al y items s :
  Forall (passed_over token_sort_ratio a al y) items ->
  spotify_items token_sort_ratio a al y items s = Ok None s.
Proof.
  intros H. rewrite <- (app_nil_r items).
  by rewrite spotify_items_passed_over.
Qed.

(** X11.  Of the entries of a Spotify answer the first that passes the
    match verification gives the cover, its first image; the entries after
    it are not looked at, and nothing is returned exactly when every entry
    names an artist and is turned down. *)
Theorem spotify_takes_the_first_match a al y items s :
  (forall url s',
     spotify_items token_sort_ratio a al y items s = Ok (Some url) s' <->
     s' = s /\
     exists before item after images,
       items = before ++ item :: after /\
       Forall (passed_over token_sort_ratio a al y) before /\
       taken token_sort_ratio a al y item /\
       sp_images item = url :: images) /\
  (forall s',
     spotify_items token_sort_ratio a al y items s = Ok None s' <->
     s' = s /\ Forall (passed_over token_sort_ratio a al y) items).
Proof.
  split.
  - intros url s'. split.
    + destruct (spotify_items_split a al y items)
        as [Hall|(before & item & after & -> & Hb & Hi)].
      { rewrite spotify_items_none by done. discriminate. }
      rewrite spotify_items_passed_over by done.
      destruct Hi as [Hn|Ht]; [simpl; by rewrite Hn|].
      rewrite spotify_items_taken by done.
      destruct (sp_images item) as [|url0 images] eqn:Himg; [done|].
      intros [= <- <-]. split; [done|].
      by exists before, item, after, images.
    + intros (-> & before & item & after & images & -> & Hb & Ht & Himg).
      rewrite spotify_items_passed_over, spotify_items_taken by done.
      by rewrite Himg.
  - intros s'. split.
    + destruct (spotify_items_split a al y items)
        as [Hall|(before & item & after & -> & Hb & Hi)].
      { rewrite spotify_items_none by done. by intros [= <-]. }
      rewrite spotify_items_passed_over by done.
      destruct Hi as [Hn|Ht]; [simpl; by rewrite Hn|].
      rewrite spotify_items_taken by done.
      by destruct (sp_images item).
    + intros (-> & Hall). by apply spotify_items_none.
Qed.

(** X12.  A Spotify answer with an entry that names no artist, or with a
    matching entry that has no image, makes [fetch_cover_spotify] raise an
    IndexError as soon as the loop reaches that entry: nothing catches it,
    and no other title is searched. *)
Theorem spotify_entry_without_artist_raises a al tok y s before item after :
  spotify_search w tok (spotify_q al a) = Response 200 (before ++ item :: after) ->
  Forall (passed_over token_sort_ratio a al y) before ->
  sp_artists item = [] \/
  (taken token_sort_ratio a al y item /\ sp_images item = []) ->
  fetch_cover_spotify token_sort_ratio w a al tok y s
  = Raise IndexError (add_log s [EvSearch Spotify a al]).
Proof.
  intros Hs Hb Hi. unfold fetch_cover_spotify, title_variants.
  cbn [spotify_variants]. unfold bind. rewrite emit_eq, Hs. simpl.
  rewrite spotify_items_passed_over by done.
  destruct Hi as [Hn|[Ht Himg]].
  - simpl. by rewrite Hn.
  - rewrite spotify_items_taken by done. by rewrite Himg.
Qed.

(** X13.  Of a Deezer answer only the status and the first entry are
    looked at: two services whose answers agree on these give the same
    result and the same requests, whatever else their answers list. *)
Theorem deezer_reads_the_first_entry_only (w2 : world) a al y s :
  (forall url,
     head_of_answer (deezer_search w url) = head_of_answer (deezer_search w2 url)) ->
  fetch_cover_deezer token_sort_ratio w a al y s
  = fetch_cover_deezer token_sort_ratio w2 a al y s.
Proof.
  intros H. unfold fetch_cover_deezer.
  generalize (title_variants al). intros vs. revert s.
  induction vs as [|v vs IH]; intros s; [done|].
  simpl. unfold bind. rewrite !emit_eq.
  specialize (H (deezer_url a v)).
  destruct (deezer_search w (deezer_url a v)) as [|st1 items1],
    (deezer_search w2 (deezer_url a v)) as [|st2 items2];
    simpl in H; try done.
  injection H as -> Hhd. simpl.
  destruct (st2 =? 200); [|apply IH].
  destruct items1 as [|i1 items1], items2 as [|i2 items2]; simpl in Hhd;
    try done.
  injection Hhd as ->.
  destruct (candidate_matches _ _ _ _ _ _ _ _); [done|apply IH].
Qed.

(** X14.  [fetch_cover_discogs] never raises: whatever the client does, it
    returns after its one search, and it returns a URL exactly when the
    search has a positive count and the first release has an image, whose
    URI it is. *)
Theorem discogs_never_raises a al s :
  exists r,
    fetch_cover_discogs w a al s = Ok r (add_log s [EvSearch Discogs a al]) /\
    forall uri,
      r = Some uri <->
      exists count uris releases,
        discogs_search w (DISCOGS_API_TOKEN w) al a
          = DiscogsResults count ((uri :: uris) :: releases) /\
        0 < count.
Proof.
  unfold fetch_cover_discogs, bind. rewrite emit_eq.
  destruct (discogs_search w (DISCOGS_API_TOKEN w) al a)
    as [|count releases] eqn:Hd.
  { exists None. split; [done|]. intros uri. split; [done|].
    by intros (? & ? & ? & ? & _). }
  destruct (0 <? count) eqn:Hc.
  - apply Z.ltb_lt in Hc.
    destruct releases as [|[|uri0 uris] releases].
    + exists None. split; [done|]. intros uri. split; [done|].
      by intros (? & ? & ? & ? & _).
    + exists None. split; [done|]. intros uri. split; [done|].
      by intros (? & ? & ? & ? & _).
    + exists (Some uri0). split; [done|]. intros uri. split.
      * intros [= <-]. by exists count, uris, releases.
      * by intros (? & ? & ? & [= _ -> _ _] & _).
  - apply Z.ltb_ge in Hc.
    exists None. split; [done|]. intros uri. split; [done|].
    intros (? & ? & ? & [= <- _] & ?). lia.
Qed.

(** X15.  Of the images of a Last.fm answer the first of size "extralarge"
    gives the URL, whatever comes after it; without such an image there is
    no URL. *)
Theorem lastfm_takes_the_first_extralarge images :
  (forall url,
     lastfm_images images = Some url <->
     exists before img after,
       images = before ++ img :: after /\
       Forall (fun i => lf_size i <> lit "extralarge") before /\
       lf_size img = lit "extralarge" /\ lf_text img = url) /\
  (lastfm_images images = None <->
   Forall (fun i => lf_size i <> lit "extralarge") images).
Proof.
  induction images as [|img images [IHs IHn]]; simpl.
  { split; [|by split; [constructor|]].
    intros url. split; [done|]. by intros ([] & ? & ? & ? & _). }
  destruct (bool_decide (lf_size img = lit "extralarge")) eqn:Hsz.
  - apply bool_decide_eq_true in Hsz. split.
    + intros url. split.
      * intros [= <-]. exists [], img, images. repeat split; [constructor|done].
      * intros ([|i before] & img' & after & Heq & Hb & Hs' & <-).
        -- by injection Heq as <- _.
        -- injection Heq as <- _. by apply Forall_cons in Hb as [? _].
    + split; [done|]. by intros [? _]%Forall_cons.
  - apply bool_decide_eq_false in Hsz. split.
    + intros url. rewrite IHs. split.
      * intros (before & img' & after & -> & Hb & Hs' & <-).
        exists (img :: before), img', after. repeat split; [by constructor|done].
      * intros ([|i before] & img' & after & Heq & Hb & Hs' & <-).
        -- by injection Heq as <- _.
        -- injection Heq as <- ->. apply Forall_cons in Hb as [_ Hb].
           by exists before, img', after.
    + rewrite IHn. split; [by constructor|by intros [_ ?]%Forall_cons].
Qed.

(** X16.  MusicBrainz gives the Cover Art Archive address of the first
    release of a 200 answer whenever the probe of that address comes back
    with any status but 404: a server error or a redirect count as a
    cover.  Two requests are sent for it, the search and the probe. *)
Theorem musicbrainz_cover_unless_404 a al s url s' :
  fetch_cover_musicbrainz w a al s = Ok (Some url) s' <->
  exists release_id ids st,
    musicbrainz_release w (musicbrainz_query a al)
      = Response 200 (Some (release_id :: ids)) /\
    url = coverart_url release_id /\
    coverart_head w url = Response st tt /\ st <> 404 /\
    s' = add_log s [EvSearch MusicBrainz a al; EvHead url].
Proof.
  unfold fetch_cover_musicbrainz, bind. rewrite emit_eq.
  split.
  - destruct (musicbrainz_release w (musicbrainz_query a al))
      as [|st [[|release_id ids]|]]; cbn -[emit add_log coverart_url]; try done;
      destruct (st =? 200) eqn:Hst; try done.
    apply Z.eqb_eq in Hst as ->. rewrite emit_eq.
    destruct (coverart_head w (coverart_url release_id)) as [|st2 []] eqn:Hh;
      cbn -[emit add_log coverart_url]; [done|].
    destruct (st2 =? 404) eqn:H404; [done|].
    apply Z.eqb_neq in H404. intros [= <- <-].
    exists release_id, ids, st2. rewrite add_log_app. by repeat split.
  - intros (release_id & ids & st & -> & -> & Hh & H404 & ->).
    cbn -[emit add_log coverart_url].
    rewrite emit_eq, Hh. cbn -[emit add_log coverart_url].
    apply Z.eqb_neq in H404. rewrite H404. by rewrite add_log_app.
Qed.

(** X17.  What [normalize_artist_name] returns contains no character of
    category "Mn"; it is the decomposed name with some characters left
    out, in the same order, and the decomposed name itself when that has no
    such character. *)
Theorem normalized_name_has_no_combining_mark artist :
  Forall (fun c => ~ is_Mn unicodedata_category c)
    (normalize_artist_name unicodedata_normalize_NFD unicodedata_category artist) /\
  sublist
    (normalize_artist_name unicodedata_normalize_NFD unicodedata_category artist)
    (unicodedata_normalize_NFD artist) /\
  (Forall (fun c => ~ is_Mn unicodedata_category c)
     (unicodedata_normalize_NFD artist) ->
   normalize_artist_name unicodedata_normalize_NFD unicodedata_category artist
   = unicodedata_normalize_NFD artist).
Proof.
  unfold normalize_artist_name, is_Mn.
  induction (unicodedata_normalize_NFD artist) as [|c l (IH1 & IH2 & IH3)];
    simpl.
  { repeat split; [constructor|constructor]. }
  destruct (bool_decide (unicodedata_category c = lit "Mn")) eqn:Hc; simpl.
  - apply bool_decide_eq_true in Hc.
    repeat split; [done|by constructor|].
    by intros [? _]%Forall_cons.
  - apply bool_decide_eq_false in Hc.
    repeat split; [by constructor|by constructor|].
    intros [_ ?]%Forall_cons. f_equal. by apply IH3.
Qed.

(** X18.  [get_spotify_artist_id] sends one search and returns the id of
    the first artist of a 200 answer, and only then an id; a 200 answer
    that lists no artist and an answer of any other status give None, the
    empty list being tested before its first entry is read; when Spotify
    cannot be reached the exception of the transport leaves the function. *)
Theorem artist_id_is_the_first_of_the_answer
    (search : str -> str -> http (list str)) a tok s :
  (forall id s',
     get_spotify_artist_id search a tok s = Ok (Some id) s' <->
     s' = add_log s [EvSearch Spotify a []] /\
     exists ids, search tok (lit "artist:" ++ a) = Response 200 (id :: ids)) /\
  (search tok (lit "artist:" ++ a) = Response 200 [] ->
   get_spotify_artist_id search a tok s
   = Ok None (add_log s [EvSearch Spotify a []])) /\
  (forall st ids,
     search tok (lit "artist:" ++ a) = Response st ids -> st <> 200 ->
     get_spotify_artist_id search a tok s
     = Ok None (add_log s [EvSearch Spotify a []])) /\
  (search tok (lit "artist:" ++ a) = ConnectionFailed ->
   get_spotify_artist_id search a tok s
   = Raise RequestException (add_log s [EvSearch Spotify a []])).
Proof.
  unfold get_spotify_artist_id, bind. rewrite emit_eq.
  destruct (search tok (lit "artist:" ++ a)) as [|st ids]; simpl.
  { split; [|by repeat split].
    intros id s'. split; [done|]. by intros (_ & ? & ?). }
  split; [|split; [|split; [|done]]].
  - intros id s'. destruct (st =? 200) eqn:Hst.
    + apply Z.eqb_eq in Hst as ->. destruct ids as [|id0 ids]; simpl.
      * split; [done|]. by intros (_ & ? & ?).
      * split; [intros [= <- <-]; eauto|].
        by intros (-> & ? & [= ->]).
    + apply Z.eqb_neq in Hst. split; [done|].
      by intros (_ & ? & [= ? _]).
  - by intros [= -> ->].
  - intros st0 ids0 [= <- <-] Hst. apply Z.eqb_neq in Hst. by rewrite Hst.
Qed.

(** *** Where an IndexError can come from *)

Lemma may_raise_bind {A B} (m : M A) (k : A -> M B) (P : exn -> Prop) :
  may_raise P m -> (forall x, may_raise P (k x)) -> may_raise P (bind m k).
Proof.
  intros Hm Hk s0 e0 s0'. unfold bind.
  destruct (m s0) as [x s1|e1 s1] eqn:Hms; [apply Hk|].
  intros [= <- <-]. by eapply Hm.
Qed.

Lemma may_raise_requests {B} (r : http B) :
  may_raise (fun e => e = RequestException) (requests r).
Proof. destruct r as [|st b]; [|done]. by intros s0 e0 s0' [= <- _]. Qed.

Lemma deezer_raises_transport a al y vs :
  may_raise (fun e => e = RequestException)
    (deezer_variants token_sort_ratio w a al y vs).
Proof.
  induction vs as [|v vs IH]; simpl; [done|].
  apply may_raise_bind; [done|intros _].
  apply may_raise_bind; [apply may_raise_requests|intros response].
  destruct (fst response =? 200); [|done].
  destruct (snd response); [done|].
  by destruct (candidate_matches _ _ _ _ _ _ _ _).
Qed.

Lemma lastfm_raises_transport a al :
  may_raise (fun e => e = RequestException) (fetch_cover_lastfm w a al).
Proof.
  unfold fetch_cover_lastfm.
  apply may_raise_bind; [done|intros _].
  apply may_raise_bind; [apply may_raise_requests|intros response].
  destruct (fst response =? 200); [|done]. by destruct (snd response).
Qed.

Lemma musicbrainz_raises_transport a al :
  may_raise (fun e => e = RequestException) (fetch_cover_musicbrainz w a al).
Proof.
  unfold fetch_cover_musicbrainz.
  apply may_raise_bind; [done|intros _].
  apply may_raise_bind; [apply may_raise_requests|intros response].
  destruct (fst response =? 200); [|done].
  destruct (snd response) as [[|release_id ids]|]; [done| |done].
  apply may_raise_bind; [done|intros _].
  apply may_raise_bind; [apply may_raise_requests|intros head_response].
  by destruct (fst head_response =? 404).
Qed.

Lemma spotify_items_index_error a al y items s e s' :
  spotify_items token_sort_ratio a al y items s = Raise e s' ->
  e = IndexError /\
  exists before item after,
    items = before ++ item :: after /\
    Forall (passed_over token_sort_ratio a al y) before /\
    (sp_artists item = [] \/
     (taken token_sort_ratio a al y item /\ sp_images item = [])).
Proof.
  destruct (spotify_items_split a al y items)
    as [Hall|(before & item & after & -> & Hb & Hi)].
  { by rewrite spotify_items_none. }
  rewrite spotify_items_passed_over by done.
  destruct Hi as [Hn|Ht].
  - simpl. rewrite Hn. intros [= <- _]. split; [done|].
    exists before, item, after. split; [done|]. split; [done|by left].
  - rewrite spotify_items_taken by done.
    destruct (sp_images item) as [|url images] eqn:Himg; [|done].
    intros [= <- _]. split; [done|].
    exists before, item, after. split; [done|]. split; [done|by right].
Qed.

Lemma spotify_variants_index_error a al t y vs s s' :
  spotify_variants token_sort_ratio w a al t y vs s = Raise IndexError s' ->
  exists variant before item after,
    variant ∈ vs /\
    spotify_search w t (spotify_q variant a)
      = Response 200 (before ++ item :: after) /\
    Forall (passed_over token_sort_ratio a al y) before /\
    (sp_artists item = [] \/
     (taken token_sort_ratio a al y item /\ sp_images item = [])).
Proof.
  revert s. induction vs as [|v vs IH]; intros s; simpl; [done|].
  assert (Hnext : spotify_variants token_sort_ratio w a al t y vs
                    (add_log s [EvSearch Spotify a v]) = Raise IndexError s' ->
          exists variant before item after,
            variant ∈ v :: vs /\
            spotify_search w t (spotify_q variant a)
              = Response 200 (before ++ item :: after) /\
            Forall (passed_over token_sort_ratio a al y) before /\
            (sp_artists item = [] \/
             (taken token_sort_ratio a al y item /\ sp_images item = []))).
  { intros (variant & before & item & after & Hin & H)%IH.
    exists variant, before, item, after. split; [by right|done]. }
  unfold bind. rewrite emit_eq.
  destruct (spotify_search w t (spotify_q v a)) as [|st items] eqn:Hs; simpl;
    [done|].
  destruct (st =? 200) eqn:Hst; [|done].
  apply Z.eqb_eq in Hst as ->.
  destruct (spotify_items token_sort_ratio a al y items
              (add_log s [EvSearch Spotify a v])) as [[url|] s1|e s1] eqn:Hi;
    [done| |].
  - pose proof (spotify_items_state token_sort_ratio a al y items
                  (add_log s [EvSearch Spotify a v])) as Hst.
    rewrite Hi in Hst. simpl in Hst. by subst s1.
  - intros [= -> _].
    apply spotify_items_index_error in Hi
      as (_ & before & item & after & -> & Hb & Hitem).
    exists v, before, item, after. split; [by left|done].
Qed.

(** X19.  The fallback over the five sources ends in an IndexError only
    when it was given a Spotify token and Spotify answered the search for
    one of the six titles with status 200 and an entry that names no
    artist, or a matching entry that has no image, every entry before it
    being turned down: the other four providers test a list before they
    read its first entry, or catch what reading it raises. *)
Theorem index_error_comes_from_spotify tok a al y rec s s' :
  provider_chain token_sort_ratio w tok a al y rec s = Raise IndexError s' ->
  truthy tok = true /\
  exists variant before item after,
    variant ∈ title_variants al /\
    spotify_search w (default [] tok) (spotify_q variant a)
      = Response 200 (before ++ item :: after) /\
    Forall (passed_over token_sort_ratio a al y) before /\
    (sp_artists item = [] \/
     (taken token_sort_ratio a al y item /\ sp_images item = [])).
Proof.
  intros H.
  apply (map_outcome_raise (fun r => found (fst r))) in H.
  rewrite chain_refines in H.
  apply resolve_cover_raise_iff in H as (ps1 & p & ps2 & s0 & _ & _ & Hp).
  destruct p; simpl in Hp.
  - destruct (truthy tok); [|done]. split; [done|].
    by apply spotify_variants_index_error in Hp.
  - by apply deezer_raises_transport in Hp.
  - by apply lastfm_raises_transport in Hp.
  - destruct (fetch_cover_discogs_returns w a al s0) as [r Hr].
    by rewrite Hr in Hp.
  - by apply musicbrainz_raises_transport in Hp.
Qed.

End Invariants.

(** *** The genre of a catalog file *)

Lemma split_head_not_in c s : c ∉ split_head c s.
Proof.
  induction s as [|x s IH]; simpl; [apply not_elem_of_nil|].
  destruct (N.eqb x c) eqn:Hx; [apply not_elem_of_nil|].
  apply N.eqb_neq in Hx. intros [?|?]%elem_of_cons; [congruence|done].
Qed.

Lemma split_head_sublist c s : sublist (split_head c s) s.
Proof.
  induction s as [|x s IH]; simpl; [constructor|].
  destruct (N.eqb x c); [apply sublist_nil_l|by constructor].
Qed.

Lemma split_head_app c l r : c ∉ l -> split_head c (l ++ c :: r) = l.
Proof.
  induction l as [|x l IH]; simpl; intros Hl.
  - by rewrite N.eqb_refl.
  - apply not_elem_of_cons in Hl as [Hx Hl].
    apply not_eq_sym, N.eqb_neq in Hx. rewrite Hx. by rewrite IH.
Qed.

Lemma split_head_all c l : c ∉ l -> split_head c l = l.
Proof.
  induction l as [|x l IH]; simpl; intros Hl; [done|].
  apply not_elem_of_cons in Hl as [Hx Hl].
  apply not_eq_sym, N.eqb_neq in Hx. rewrite Hx. by rewrite IH.
Qed.

Lemma elem_of_rev {A} (x : A) (l : list A) : x ∈ rev l <-> x ∈ l.
Proof. rewrite !list_elem_of_In. symmetry. apply in_rev. Qed.

Lemma basename_no_slash p : slash ∉ basename p.
Proof.
  unfold basename. rewrite elem_of_rev. apply split_head_not_in.
Qed.

Lemma basename_of_name name : slash ∉ name -> basename name = name.
Proof.
  intros H. unfold basename. rewrite split_head_all, rev_involutive; [done|].
  by rewrite elem_of_rev.
Qed.

Lemma basename_app dir name :
  slash ∉ name -> basename (dir ++ slash :: name) = name.
Proof.
  intros H. unfold basename.
  rewrite rev_app_distr. simpl. rewrite <- app_assoc. simpl.
  rewrite split_head_app, rev_involutive; [done|].
  by rewrite elem_of_rev.
Qed.

Lemma after_first_sublist c s t : after_first c s = Some t -> sublist t s.
Proof.
  revert t. induction s as [|x s IH]; simpl; intros t; [done|].
  destruct (N.eqb x c).
  - intros [= <-]. by constructor.
  - intros H. constructor. by apply IH.
Qed.

Lemma splitext_root_of_name name :
  slash ∉ name -> slash ∉ splitext_root name.
Proof.
  intros H. unfold splitext_root. rewrite basename_of_name by done.
  destruct (after_first dot (rev name)) as [stem_rev|] eqn:Ha; [|done].
  destruct (forallb _ _); [done|].
  rewrite Nat.sub_diag. simpl. rewrite elem_of_rev.
  intros Hin. apply H. rewrite <- elem_of_rev.
  eapply elem_of_sublist; [exact Hin|]. by eapply after_first_sublist.
Qed.

(** X20.  The genre taken from the path of the catalog file contains no
    slash, whatever the path: the covers of a catalog go to one directory
    right under "bandcover". *)
Theorem genre_has_no_slash file_path : slash ∉ genre_of file_path.
Proof. apply splitext_root_of_name, basename_no_slash. Qed.

Lemma genre_of_name stem :
  slash ∉ stem -> (exists c, c ∈ stem /\ c <> dot) ->
  splitext_root (stem ++ lit ".json") = stem.
Proof.
  intros Hs (c & Hin & Hc).
  assert (Hname : slash ∉ stem ++ lit ".json").
  { intros [?|Hj]%elem_of_app; [done|].
    apply list_elem_of_In in Hj. vm_compute in Hj. intuition discriminate. }
  unfold splitext_root. rewrite basename_of_name by done.
  rewrite rev_app_distr.
  change (rev (lit ".json")) with [110; 111; 115; 106; 46]%N.
  cbn [app after_first N.eqb dot Pos.eqb].
  destruct (forallb (N.eqb dot) (rev stem)) eqn:Hall.
  - exfalso. rewrite forallb_forall in Hall.
    specialize (Hall c). rewrite <- in_rev in Hall.
    apply list_elem_of_In in Hin. apply Hall in Hin.
    apply N.eqb_eq in Hin. congruence.
  - by rewrite Nat.sub_diag, rev_involutive.
Qed.

(** X21.  For a catalog file "<stem>.json", in whatever directory, the
    genre is the stem (which may contain dots, but not only dots), and the
    cover of a record goes to "bandcover/<stem>/<slug>.jpg". *)
Theorem covers_go_under_the_name_of_the_catalog (slugify : str -> str)
    dir stem a al :
  slash ∉ stem ->
  (exists c, c ∈ stem /\ c <> dot) ->
  startswith_sep (slugify (a ++ lit "_" ++ al)) = false ->
  genre_of (stem ++ lit ".json") = stem /\
  genre_of (dir ++ slash :: stem ++ lit ".json") = stem /\
  output_path_of slugify (genre_of (dir ++ slash :: stem ++ lit ".json")) a al
  = lit "bandcover/" ++ stem ++ lit "/" ++ slugify (a ++ lit "_" ++ al)
      ++ lit ".jpg".
Proof.
  intros Hs Hc Hslug.
  assert (Hname : slash ∉ stem ++ lit ".json").
  { intros [?|Hj]%elem_of_app; [done|].
    apply list_elem_of_In in Hj. vm_compute in Hj. intuition discriminate. }
  assert (H1 : genre_of (stem ++ lit ".json") = stem).
  { unfold genre_of. rewrite basename_of_name by done. by apply genre_of_name. }
  assert (H2 : genre_of (dir ++ slash :: stem ++ lit ".json") = stem).
  { unfold genre_of. rewrite basename_app by done. by apply genre_of_name. }
  split; [done|]. split; [done|].
  rewrite H2. apply output_path_shape; [|done|done].
  destruct Hc as (c & Hin & _). intros ->. by apply not_elem_of_nil in Hin.
Qed.

(** ** The invariants at work *)

Lemma run_keeps_the_records_witness :
  length [set_coverSrc pink_floyd (lit "/bandcover/rock/pink-floyd-the-wall.jpg");
          set_coverSrc animals (lit "/bandcover/rock/pink-floyd-animals.jpg")]
  = length [pink_floyd; animals] /\
  Forall2 (fun r r' =>
      artist r' = artist r /\ album r' = album r /\ year r' = year r)
    [pink_floyd; animals]
    [set_coverSrc pink_floyd (lit "/bandcover/rock/pink-floyd-the-wall.jpg");
     set_coverSrc animals (lit "/bandcover/rock/pink-floyd-animals.jpg")].
Proof.
  apply (run_keeps_the_records sample_ratio sample_slugify lastfm_world
           (lit "rock") [pink_floyd; animals] empty_disk _
           (state_of (process_json sample_ratio sample_slugify lastfm_world
                        (lit "rock") [pink_floyd; animals] empty_disk))).
  by vm_compute.
Defined.

Lemma coverSrc_is_never_lost_witness :
  Forall2 (fun r r' =>
      is_Some (coverSrc r') /\
      (truthy (coverSrc r) = true -> truthy (coverSrc r') = true))
    [pink_floyd; set_coverSrc animals (lit "/covers/animals.jpg")]
    [set_coverSrc pink_floyd (lit "/default-cover.jpg");
     set_coverSrc animals (lit "/default-cover.jpg")].
Proof.
  apply (coverSrc_is_never_lost sample_ratio sample_slugify silent_world
           (lit "rock")
           [pink_floyd; set_coverSrc animals (lit "/covers/animals.jpg")]
           empty_disk _
           (state_of (process_json sample_ratio sample_slugify silent_world
                        (lit "rock")
                        [pink_floyd;
                         set_coverSrc animals (lit "/covers/animals.jpg")]
                        empty_disk))).
  by vm_compute.
Defined.

Lemma downloaded_cover_is_found_again_witness :
  process_record sample_ratio sample_slugify lastfm_world None (lit "rock")
    (set_coverSrc pink_floyd (lit "/bandcover/rock/pink-floyd-the-wall.jpg"))
    (saved
       (add_log empty_disk
          (six_titles Deezer (lit "Pink Floyd") (lit "The Wall")
             ++ [EvSearch LastFm (lit "Pink Floyd") (lit "The Wall")]))
       wall_cover_url wall_path)
  = Ok (set_coverSrc pink_floyd (lit "/bandcover/rock/pink-floyd-the-wall.jpg"))
       (saved
          (add_log empty_disk
             (six_titles Deezer (lit "Pink Floyd") (lit "The Wall")
                ++ [EvSearch LastFm (lit "Pink Floyd") (lit "The Wall")]))
          wall_cover_url wall_path).
Proof.
  refine (proj1 (downloaded_cover_is_found_again sample_ratio sample_slugify
            lastfm_world None (lit "rock") pink_floyd empty_disk
            (set_coverSrc pink_floyd
               (lit "/bandcover/rock/pink-floyd-the-wall.jpg"))
            (saved
               (add_log empty_disk
                  (six_titles Deezer (lit "Pink Floyd") (lit "The Wall")
                     ++ [EvSearch LastFm (lit "Pink Floyd") (lit "The Wall")]))
               wall_cover_url wall_path)
            _ _ None _ _)); [by vm_compute| |done].
  intros H.
  apply (f_equal (fun disk : gset str => bool_decide (wall_path ∈ disk))) in H.
  vm_compute in H. discriminate H.
Defined.

Lemma failed_download_is_passed_over_witness :
  process_records sample_ratio sample_slugify coverart_error_world None
    (lit "rock") [pink_floyd; animals] empty_disk
  = map_outcome (cons (with_coverSrc_field pink_floyd))
      (process_records sample_ratio sample_slugify coverart_error_world None
         (lit "rock") [animals]
         (add_log
            (state_of (provider_chain sample_ratio coverart_error_world None
                         (lit "Pink Floyd") (lit "The Wall") (Some (lit "1979"))
                         (with_coverSrc_field pink_floyd) empty_disk))
            [EvDownload (coverart_url (lit "b84ee12a"))])).
Proof.
  apply (failed_download_is_passed_over sample_ratio sample_slugify
           coverart_error_world None (lit "rock") pink_floyd [animals]
           empty_disk (coverart_url (lit "b84ee12a"))
           (with_coverSrc_field pink_floyd)).
  - by vm_compute.
  - by vm_compute.
  - by vm_compute.
  - reflexivity.
  - right. exists 500, []. split; [reflexivity|discriminate].
Defined.

Lemma unreachable_token_endpoint_ends_the_run_witness :
  process_json sample_ratio sample_slugify offline_world (lit "rock")
    [pink_floyd] disk_with_wall
  = Raise RequestException (add_log disk_with_wall [EvToken]).
Proof.
  apply (unreachable_token_endpoint_ends_the_run sample_ratio sample_slugify
           offline_world (lit "rock") [pink_floyd] disk_with_wall).
  reflexivity.
Defined.

Lemma spotify_entry_without_artist_raises_witness :
  fetch_cover_spotify sample_ratio nameless_world
    (lit "Pink Floyd") (lit "The Wall") (lit "token") (Some (lit "1979"))
    empty_disk
  = Raise IndexError
      (add_log empty_disk [EvSearch Spotify (lit "Pink Floyd") (lit "The Wall")]).
Proof.
  apply (spotify_entry_without_artist_raises sample_ratio nameless_world
           (lit "Pink Floyd") (lit "The Wall") (lit "token") (Some (lit "1979"))
           empty_disk [animals_on_spotify] nameless_on_spotify []).
  - reflexivity.
  - constructor; [|constructor].
    exists (lit "Pink Floyd"), []. split; [reflexivity|by vm_compute].
  - left. reflexivity.
Defined.

Lemma deezer_reads_the_first_entry_only_witness :
  fetch_cover_deezer sample_ratio bjork_world bjork (lit "Homogenic") None
    empty_disk
  = fetch_cover_deezer sample_ratio bjork_twice_world bjork (lit "Homogenic")
      None empty_disk.
Proof.
  apply (deezer_reads_the_first_entry_only sample_ratio bjork_world
           bjork_twice_world bjork (lit "Homogenic") None empty_disk).
  intros url. reflexivity.
Defined.

Lemma index_error_comes_from_spotify_witness :
  truthy (Some (lit "token")) = true /\
  exists variant before item after,
    variant ∈ title_variants (lit "The Wall") /\
    spotify_search nameless_world (default [] (Some (lit "token")))
      (spotify_q variant (lit "Pink Floyd"))
      = Response 200 (before ++ item :: after) /\
    Forall (passed_over sample_ratio (lit "Pink Floyd") (lit "The Wall")
              (Some (lit "1979"))) before /\
    (sp_artists item = [] \/
     (taken sample_ratio (lit "Pink Floyd") (lit "The Wall")
        (Some (lit "1979")) item /\ sp_images item = [])).
Proof.
  apply (index_error_comes_from_spotify sample_ratio nameless_world
           (Some (lit "token")) (lit "Pink Floyd") (lit "The Wall")
           (Some (lit "1979")) pink_floyd empty_disk
           (add_log empty_disk
              [EvSearch Spotify (lit "Pink Floyd") (lit "The Wall")])).
  by vm_compute.
Defined.

Lemma covers_go_under_the_name_of_the_catalog_witness :
  genre_of (lit "rock" ++ lit ".json") = lit "rock" /\
  genre_of (lit "data/genres" ++ slash :: lit "rock" ++ lit ".json") = lit "rock" /\
  output_path_of sample_slugify
    (genre_of (lit "data/genres" ++ slash :: lit "rock" ++ lit ".json"))
    (lit "Pink Floyd") (lit "The Wall")
  = lit "bandcover/" ++ lit "rock" ++ lit "/"
      ++ sample_slugify (lit "Pink Floyd" ++ lit "_" ++ lit "The Wall")
      ++ lit ".jpg".
Proof.
  apply (covers_go_under_the_name_of_the_catalog sample_slugify
           (lit "data/genres") (lit "rock") (lit "Pink Floyd") (lit "The Wall")).
  - intros Hin. apply list_elem_of_In in Hin. vm_compute in Hin.
    intuition discriminate.
  - exists 114%N. split; [|discriminate].
    apply list_elem_of_In. vm_compute. by left.
  - reflexivity.
Defined.

(** Two records of the same album in one catalog: the cover is downloaded
    for the first, and the second finds the file. *)
Example second_copy_is_a_cache_hit :
  observed (process_json sample_ratio sample_slugify lastfm_world (lit "rock")
              [pink_floyd; pink_floyd] empty_disk)
  = (inl [set_coverSrc pink_floyd (lit "/bandcover/rock/pink-floyd-the-wall.jpg");
          set_coverSrc pink_floyd (lit "/bandcover/rock/pink-floyd-the-wall.jpg")],
     EvToken :: six_titles Deezer (lit "Pink Floyd") (lit "The Wall")
       ++ [EvSearch LastFm (lit "Pink Floyd") (lit "The Wall");
           EvDownload wall_cover_url]).
Proof. by vm_compute. Qed.

(** The probe of the Cover Art Archive answers 500: the address is taken
    for a cover all the same, and the download is tried. *)
Example server_error_counts_as_a_cover :
  observed (fetch_cover_musicbrainz coverart_error_world
              (lit "Pink Floyd") (lit "The Wall") empty_disk)
  = (inl (Some (coverart_url (lit "b84ee12a"))),
     [EvSearch MusicBrainz (lit "Pink Floyd") (lit "The Wall");
      EvHead (coverart_url (lit "b84ee12a"))]).
Proof. by vm_compute. Qed.

(** Of two images of the size asked for, the first. *)
Example first_of_two_extralarge :
  lastfm_images two_extralarge = Some wall_cover_url.
Proof. by vm_compute. Qed.

(** Genres of some paths. *)
Example genres_of_paths :
  genre_of (lit "data/rock.json") = lit "rock" /\
  genre_of (lit "post.rock.json") = lit "post.rock" /\
  genre_of (lit "genres.d/rock") = lit "rock" /\
  genre_of (lit ".json") = lit ".json".
Proof. repeat split; by vm_compute. Qed.
